(** * Thread pool of CrolinKit (src/core/thread): task queue, workers, lifecycle

    A shallow embedding of [thread.c] / [thread_internal.h].

    - C strings live in fixed [char] buffers, modelled as [list ascii];
      [c_str] reads a buffer up to its first NUL.
    - Queue nodes live in a heap [gmap positive task_node_t]; [malloc] results
      are supplied by the caller of each embedded function (the allocator is
      the environment), [free] is [delete].
    - A result of [None] stands for undefined behaviour of the C program:
      a load through a dangling pointer or a signed overflow of an [int].
    - The pool lock makes every critical section atomic; the concurrent
      system is an interleaving of such sections (see [step]). *)

From Stdlib Require Import ZArith Ascii String Lia.
From stdpp Require Import base option list gmap.

Local Open Scope Z_scope.

(** ** C strings in fixed-size buffers *)

Definition MAX_TASK_NAME_LEN : nat := 64.

Definition NUL : ascii := Ascii.zero.

Definition lit (s : string) : list ascii := list_ascii_of_string s.

(** The string a [char *] denotes: the bytes before the first NUL. *)
Fixpoint c_str (s : list ascii) : list ascii :=
  match s with
  | [] => []
  | c :: s' => if Ascii.eqb c NUL then [] else c :: c_str s'
  end.

(** [strncpy(dst, src, n)]: writes exactly [n] bytes, the string [src]
    cut to [n] characters and padded with NULs; the rest of [dst] stays. *)
Definition strncpy (dst src : list ascii) (n : nat) : list ascii :=
  let s := take n (c_str src) in
  s ++ replicate (n - length s) NUL ++ drop n dst.

(** [snprintf(dst, size, "%s", src)]: at most [size - 1] characters and a
    terminating NUL; nothing is written past the terminator. *)
Definition snprintf_s (dst : list ascii) (size : nat) (src : list ascii) : list ascii :=
  match size with
  | O => dst
  | S k => let s := take k (c_str src) in s ++ NUL :: drop (S (length s)) dst
  end.

(** Memory returned by [malloc] or reserved on the stack is not initialised;
    every buffer of the pool is overwritten in full before it is read
    (see [strncpy_terminated_any]), so one fixed content stands for it. *)
Definition uninit_buf : list ascii := replicate MAX_TASK_NAME_LEN NUL.

(** [strncpy(buf, src, MAX_TASK_NAME_LEN - 1); buf[MAX_TASK_NAME_LEN - 1] = 0]. *)
Definition copy_name (buf src : list ascii) : list ascii :=
  <[(MAX_TASK_NAME_LEN - 1)%nat := NUL]> (strncpy buf src (MAX_TASK_NAME_LEN - 1)).

(** A status slot that holds the idle sentinel. *)
Definition idle_slot : list ascii := copy_name uninit_buf (lit "[idle]").

(** ** Data model ([thread.h], [thread_internal.h]) *)

Abbreviation loc := positive.

(** A pointer; [None] is [NULL]. *)
Abbreviation ptr := (option positive).

Record task_t := Task {
  function : ptr;            (* function pointer of the action *)
  arg : ptr;                 (* opaque argument *)
  task_name : list ascii     (* char buffer of MAX_TASK_NAME_LEN bytes *)
}.

Record task_node_t := Node {
  task : task_t;
  next : ptr
}.

Record thread_pool_s := Pool {
  thread_count : Z;
  head : ptr;
  tail : ptr;
  task_queue_size : Z;
  shutdown : Z;
  started : Z;
  running_task_names : list (list ascii)
}.

Definition set_head (v : ptr) (p : thread_pool_s) : thread_pool_s :=
  Pool (thread_count p) v (tail p) (task_queue_size p) (shutdown p) (started p)
       (running_task_names p).

Definition set_tail (v : ptr) (p : thread_pool_s) : thread_pool_s :=
  Pool (thread_count p) (head p) v (task_queue_size p) (shutdown p) (started p)
       (running_task_names p).

Definition set_task_queue_size (v : Z) (p : thread_pool_s) : thread_pool_s :=
  Pool (thread_count p) (head p) (tail p) v (shutdown p) (started p)
       (running_task_names p).

Definition set_shutdown (v : Z) (p : thread_pool_s) : thread_pool_s :=
  Pool (thread_count p) (head p) (tail p) (task_queue_size p) v (started p)
       (running_task_names p).

Definition set_running_task_names (v : list (list ascii)) (p : thread_pool_s)
  : thread_pool_s :=
  Pool (thread_count p) (head p) (tail p) (task_queue_size p) (shutdown p)
       (started p) v.

(** ** [int] arithmetic: signed overflow is undefined *)

Definition INT_MAX : Z := 2147483647.
Definition INT_MIN : Z := -2147483648.

Definition int_incr (x : Z) : option Z :=
  if decide (x < INT_MAX) then Some (x + 1) else None.

Definition int_decr (x : Z) : option Z :=
  if decide (INT_MIN < x) then Some (x - 1) else None.

(** ** Task queue (internal functions of [thread.c]) *)

(** [task_enqueue_internal(pool, task)]; [new_node] is the result of the
    [malloc] of the node. Returns the new heap and pool and the C result. *)
Definition task_enqueue_internal (h : gmap positive task_node_t) (pool : thread_pool_s)
    (t : task_t) (new_node : ptr)
  : option (gmap positive task_node_t * thread_pool_s * Z) :=
  match new_node with
  | None => Some (h, pool, -1)
  | Some n =>
    let h1 := <[n := Node t None]> h in
    '(h2, pool2) ←
      match tail pool with
      | None => Some (h1, set_tail (Some n) (set_head (Some n) pool))
      | Some tl =>
        nd ← h1 !! tl;
        Some (<[tl := Node (task nd) (Some n)]> h1, set_tail (Some n) pool)
      end;
    sz ← int_incr (task_queue_size pool2);
    Some (h2, set_task_queue_size sz pool2, 0)
  end.

(** [task_dequeue_internal(pool)]; [alloc_ok] tells whether the [malloc] of
    the returned [task_t] copy succeeds. The copy is returned by value. *)
Definition task_dequeue_internal (h : gmap positive task_node_t) (pool : thread_pool_s)
    (alloc_ok : bool)
  : option (gmap positive task_node_t * thread_pool_s * option task_t) :=
  match head pool with
  | None => Some (h, pool, None)
  | Some n =>
    if negb alloc_ok then Some (h, pool, None)
    else
      nd ← h !! n;
      let pool1 := set_head (next nd) pool in
      let pool2 := match head pool1 with
                   | None => set_tail None pool1
                   | Some _ => pool1
                   end in
      sz ← int_decr (task_queue_size pool2);
      Some (delete n h, set_task_queue_size sz pool2, Some (task nd))
  end.

(** The [while (current != NULL)] loop of [task_queue_destroy_internal]:
    every iteration frees one allocated node, so [fuel] above the number of
    allocated nodes is never exhausted. *)
Fixpoint free_nodes (fuel : nat) (h : gmap positive task_node_t) (current : ptr)
  : option (gmap positive task_node_t) :=
  match current with
  | None => Some h
  | Some c =>
    match fuel with
    | O => None
    | S fuel' => nd ← h !! c; free_nodes fuel' (delete c h) (next nd)
    end
  end.

Definition task_queue_destroy_internal (h : gmap positive task_node_t)
    (pool : thread_pool_s) : option (gmap positive task_node_t * thread_pool_s) :=
  h' ← free_nodes (S (size h)) h (head pool);
  Some (h', set_task_queue_size 0 (set_tail None (set_head None pool))).

(** ** Memory: queue nodes and pool structures, each addressed by a pointer *)

Record memory := Mem {
  nodes : gmap positive task_node_t;
  pools : gmap positive thread_pool_s
}.

(** ** Worker thread ([worker_thread_function]) *)

(** Where a worker stands between two critical sections. *)
Inductive worker_pc :=
  | WLoop                 (* at the top of [while (1)], or blocked in [pthread_cond_wait] *)
  | WRun (t : task_t)     (* pool unlocked, about to call or inside [t]'s function *)
  | WExit.                (* [pthread_exit] was called *)

(** One pass through the locked part of the loop body, from
    [pthread_mutex_lock] (or a wakeup inside [pthread_cond_wait]) to the
    next unlock or wait. *)
Definition worker_dispatch (h : gmap positive task_node_t) (pool : thread_pool_s)
    (thread_id : nat) (alloc_ok : bool)
  : option (gmap positive task_node_t * thread_pool_s * worker_pc) :=
  if decide (task_queue_size pool = 0 ∧ shutdown pool = 0) then
    Some (h, pool, WLoop)
  else if decide (shutdown pool ≠ 0 ∧ task_queue_size pool = 0) then
    Some (h, pool, WExit)
  else
    '(h', pool', current_task_data) ← task_dequeue_internal h pool alloc_ok;
    match current_task_data with
    | Some t =>
      slot ← running_task_names pool' !! thread_id;
      let slot' := snprintf_s slot MAX_TASK_NAME_LEN (task_name t) in
      Some (h', set_running_task_names
                  (<[thread_id := slot']> (running_task_names pool')) pool',
            WRun t)
    | None =>
      if decide (shutdown pool' ≠ 0) then Some (h', pool', WExit)
      else Some (h', pool', WLoop)
    end.

(** After the task function returned: relock, reset the slot to the idle
    sentinel, unlock. *)
Definition worker_finish (pool : thread_pool_s) (thread_id : nat)
  : option thread_pool_s :=
  slot ← running_task_names pool !! thread_id;
  Some (set_running_task_names
          (<[thread_id := copy_name slot (lit "[idle]")]> (running_task_names pool))
          pool).

(** ** Public API *)

(** Outcomes of the fallible steps of [thread_pool_create]. *)
Record create_env := CreateEnv {
  calloc_pool : ptr;
  mutex_init_ok : bool;
  cond_init_ok : bool;
  malloc_threads_ok : bool;
  malloc_names_ok : bool;
  malloc_name_ok : nat → bool;   (* the slot of worker i *)
  spawn_ok : nat → bool          (* argument block and pthread_create of worker i *)
}.

(** The loop that allocates the status slots, from index [i], [n] to go. *)
Fixpoint alloc_names (env : create_env) (i n : nat) (acc : list (list ascii))
  : option (list (list ascii)) :=
  match n with
  | O => Some acc
  | S n' =>
    if malloc_name_ok env i
    then alloc_names env (S i) n' (acc ++ [copy_name uninit_buf (lit "[idle]")])
    else None
  end.

(** The loop that starts the workers; [started] never exceeds
    [num_threads], an [int], so its increment cannot overflow. *)
Fixpoint spawn_workers (env : create_env) (i n : nat) (started : Z) : option Z :=
  match n with
  | O => Some started
  | S n' => if spawn_ok env i then spawn_workers env (S i) n' (started + 1) else None
  end.

(** [thread_pool_create(num_threads)]. Every failure path releases what
    was allocated and returns [NULL]; memory is then as before the call.
    (After a failed spawn the code first joins the workers it started; the
    result given here is that of the call once these joins have returned.) *)
Definition thread_pool_create (m : memory) (num_threads : Z) (env : create_env)
  : memory * ptr :=
  if decide (num_threads ≤ 0) then (m, None)
  else
    match calloc_pool env with
    | None => (m, None)
    | Some a =>
      if negb (mutex_init_ok env) then (m, None)
      else if negb (cond_init_ok env) then (m, None)
      else if negb (malloc_threads_ok env) then (m, None)
      else if negb (malloc_names_ok env) then (m, None)
      else
        match alloc_names env 0 (Z.to_nat num_threads) [] with
        | None => (m, None)
        | Some names =>
          match spawn_workers env 0 (Z.to_nat num_threads) 0 with
          | None => (m, None)
          | Some st =>
            (Mem (nodes m)
                 (<[a := Pool num_threads None None 0 0 st names]> (pools m)),
             Some a)
          end
        end
    end.

(** The name preparation of [thread_pool_add_task] into the local
    [new_task.task_name]. *)
Definition prepare_task_name (task_name : option (list ascii)) : list ascii :=
  match task_name with
  | Some s => copy_name uninit_buf s
  | None => copy_name uninit_buf (lit "unnamed_task")
  end.

(** [thread_pool_add_task(pool, function, arg, task_name)]; [new_node] is
    the result of the node [malloc] inside [task_enqueue_internal]. *)
Definition thread_pool_add_task (m : memory) (pool function arg : ptr)
    (task_name : option (list ascii)) (new_node : ptr) : option (memory * Z) :=
  match pool, function with
  | Some a, Some _ =>
    p ← pools m !! a;
    if decide (shutdown p ≠ 0) then Some (m, -1)
    else
      let new_task := Task function arg (prepare_task_name task_name) in
      '(h, p', r) ← task_enqueue_internal (nodes m) p new_task new_node;
      if decide (r ≠ 0) then Some (Mem h (<[a := p']> (pools m)), -1)
      else Some (Mem h (<[a := p']> (pools m)), 0)
  | _, _ => Some (m, -1)
  end.

(** [thread_pool_destroy] blocks in [pthread_join]; the part before the
    join loop either returns or leaves the caller joining. *)
Inductive destroy_progress :=
  | DestroyReturned (r : Z)
  | DestroyJoining.

Definition thread_pool_destroy_begin (m : memory) (pool : ptr)
  : option (memory * destroy_progress) :=
  match pool with
  | None => Some (m, DestroyReturned (-1))
  | Some a =>
    p ← pools m !! a;
    if decide (shutdown p ≠ 0) then Some (m, DestroyReturned 0)
    else Some (Mem (nodes m) (<[a := set_shutdown 1 p]> (pools m)), DestroyJoining)
  end.

(** The part of [thread_pool_destroy] after every join returned: drain the
    queue, release the slots and the primitives, free the pool. *)
Definition thread_pool_destroy_finish (m : memory) (a : positive)
  : option (memory * Z) :=
  p ← pools m !! a;
  '(h, _) ← task_queue_destroy_internal (nodes m) p;
  Some (Mem h (delete a (pools m)), 0).

(** Outcomes of the allocations of [thread_pool_get_running_task_names]. *)
Record names_env := NamesEnv {
  malloc_array_ok : bool;
  malloc_copy_ok : nat → bool
}.

(** The copy loop, from index [i], [n] to go. [None] is undefined
    behaviour, [Some None] the [NULL] result after cleaning up. *)
Fixpoint copy_names (env : names_env) (slots : list (list ascii)) (i n : nat)
    (acc : list (list ascii)) : option (option (list (list ascii))) :=
  match n with
  | O => Some (Some acc)
  | S n' =>
    if malloc_copy_ok env i then
      slot ← slots !! i;
      let copy := <[(MAX_TASK_NAME_LEN - 1)%nat := NUL]>
                    (strncpy uninit_buf slot MAX_TASK_NAME_LEN) in
      copy_names env slots (S i) n' (acc ++ [copy])
    else Some None
  end.

Definition thread_pool_get_running_task_names (m : memory) (pool : ptr)
    (env : names_env) : option (option (list (list ascii))) :=
  match pool with
  | None => Some None
  | Some a =>
    p ← pools m !! a;
    if negb (malloc_array_ok env) then Some None
    else copy_names env (running_task_names p) 0 (Z.to_nat (thread_count p)) []
  end.

(** ** The concurrent system: one pool, its workers and its callers *)

(** The state of the program around one pool, with its history. [submitted]
    lists the tasks of the Submits that returned 0, [dequeued] those a worker
    took from the queue, [invoked] those whose function was called, in the
    order in which that happened; [discarded] lists the tasks of the nodes that
    the drain of Destroy freed. [enqueue_calls] counts the calls of
    [task_enqueue_internal], failed ones included. *)
Record sys := Sys {
  mem : memory;
  handle : positive;
  workers : list worker_pc;
  submitted : list task_t;
  dequeued : list task_t;
  invoked : list task_t;
  discarded : list task_t;
  enqueue_calls : nat
}.

(** The tasks of the nodes reached from [p] along [next]. *)
Fixpoint walk (fuel : nat) (h : gmap positive task_node_t) (p : ptr) : list task_t :=
  match fuel, p with
  | S fuel', Some c =>
    match h !! c with
    | Some nd => task nd :: walk fuel' h (next nd)
    | None => []
    end
  | _, _ => []
  end.

Definition queued_tasks (h : gmap positive task_node_t) (pool : thread_pool_s)
  : list task_t :=
  walk (size h) h (head pool).

(** The tasks that workers hold between dequeue and invocation. *)
Fixpoint running_tasks (ws : list worker_pc) : list task_t :=
  match ws with
  | [] => []
  | WRun t :: ws' => t :: running_tasks ws'
  | _ :: ws' => running_tasks ws'
  end.

Definition exited (w : worker_pc) : bool :=
  match w with WExit => true | _ => false end.

(** What happens next: a caller enters [thread_pool_add_task] or
    [thread_pool_destroy], a worker runs one locked section or its task, or
    the join loop of Destroy completes. Each carries the outcome of the
    allocation made on the way. *)
Inductive label :=
  | LSubmit (function arg : ptr) (task_name : option (list ascii)) (new_node : ptr)
  | LWork (thread_id : nat) (alloc_ok : bool)
  | LRun (thread_id : nat)
  | LDestroy
  | LJoin.

(** [malloc] returns [NULL] or a block that is not allocated. *)
Definition malloc_result_ok (h : gmap positive task_node_t) (new_node : ptr) : bool :=
  match new_node with
  | None => true
  | Some n => bool_decide (h !! n = None)
  end.

(** One atomic step; [None] when the step cannot happen in the state (the
    thread is elsewhere, a join has not returned) or is undefined. *)
Definition step (s : sys) (l : label) : option sys :=
  match l with
  | LSubmit f a name new_node =>
    if negb (malloc_result_ok (nodes (mem s)) new_node) then None
    else
      p ← pools (mem s) !! handle s;
      '(m', r) ← thread_pool_add_task (mem s) (Some (handle s)) f a name new_node;
      let calls := match f with
                   | Some _ => if decide (shutdown p ≠ 0) then O else 1%nat
                   | None => O
                   end in
      Some (Sys m' (handle s) (workers s)
                (if decide (r = 0)
                 then submitted s ++ [Task f a (prepare_task_name name)]
                 else submitted s)
                (dequeued s) (invoked s) (discarded s)
                (enqueue_calls s + calls))
  | LWork i alloc_ok =>
    match workers s !! i with
    | Some WLoop =>
      p ← pools (mem s) !! handle s;
      '(h', p', pc) ← worker_dispatch (nodes (mem s)) p i alloc_ok;
      Some (Sys (Mem h' (<[handle s := p']> (pools (mem s)))) (handle s)
                (<[i := pc]> (workers s))
                (submitted s)
                (match pc with WRun t => dequeued s ++ [t] | _ => dequeued s end)
                (invoked s) (discarded s) (enqueue_calls s))
    | _ => None
    end
  | LRun i =>
    match workers s !! i with
    | Some (WRun t) =>
      p ← pools (mem s) !! handle s;
      p' ← worker_finish p i;
      Some (Sys (Mem (nodes (mem s)) (<[handle s := p']> (pools (mem s))))
                (handle s) (<[i := WLoop]> (workers s))
                (submitted s) (dequeued s) (invoked s ++ [t]) (discarded s)
                (enqueue_calls s))
    | _ => None
    end
  | LDestroy =>
    '(m', _) ← thread_pool_destroy_begin (mem s) (Some (handle s));
    Some (Sys m' (handle s) (workers s) (submitted s) (dequeued s) (invoked s)
              (discarded s) (enqueue_calls s))
  | LJoin =>
    p ← pools (mem s) !! handle s;
    if decide (shutdown p ≠ 0) then
      if forallb exited (workers s) then
        '(m', _) ← thread_pool_destroy_finish (mem s) (handle s);
        Some (Sys m' (handle s) (workers s) (submitted s) (dequeued s) (invoked s)
                  (queued_tasks (nodes (mem s)) p) (enqueue_calls s))
      else None
    else None
  end.

Fixpoint run (s : sys) (sched : list label) : option sys :=
  match sched with
  | [] => Some s
  | l :: sched' => s' ← step s l; run s' sched'
  end.

(** The program after [thread_pool_create(num_threads)] returned a pool:
    every worker has been started and nothing was submitted yet. *)
Definition boot (num_threads : Z) (env : create_env) : option sys :=
  match thread_pool_create (Mem ∅ ∅) num_threads env with
  | (m, Some a) =>
    Some (Sys m a (replicate (Z.to_nat num_threads) WLoop) [] [] [] [] 0)
  | (_, None) => None
  end.

(** No task-copy allocation of a worker fails along the schedule. *)
Definition no_dequeue_failure (l : label) : bool :=
  match l with
  | LWork _ false => false
  | _ => true
  end.

(** ** Representation of the queue in the heap *)

(** The nodes [ns] (addresses and tasks) are linked from [p] to [NULL]. *)
Fixpoint lseg (h : gmap positive task_node_t) (p : ptr) (ns : list (positive * task_t))
  : Prop :=
  match ns with
  | [] => p = None
  | (l, t) :: ns' => p = Some l ∧ ∃ nx, h !! l = Some (Node t nx) ∧ lseg h nx ns'
  end.

(** The pool's queue fields describe the list [ns]. *)
Definition queue_rep (h : gmap positive task_node_t) (pool : thread_pool_s)
    (ns : list (positive * task_t)) : Prop :=
  lseg h (head pool) ns ∧ NoDup ns.*1 ∧ tail pool = last ns.*1 ∧
  task_queue_size pool = Z.of_nat (length ns).

Definition queue_wf (h : gmap positive task_node_t) (pool : thread_pool_s) : Prop :=
  ∃ ns, queue_rep h pool ns.

(** The invariant on the three queue fields alone. *)
Definition queue_fields_ok (pool : thread_pool_s) : Prop :=
  (head pool = None ↔ tail pool = None) ∧
  (head pool = None ∧ tail pool = None ↔ task_queue_size pool = 0).

(** ** Invariants of the concurrent system *)


Definition sys_inv (s : sys) : Prop :=
  (length (submitted s) ≤ enqueue_calls s)%nat ∧
  match pools (mem s) !! handle s with
  | Some p =>
    ∃ ns, queue_rep (nodes (mem s)) p ns ∧
      submitted s = dequeued s ++ ns.*2 ∧
      dequeued s ≡ₚ invoked s ++ running_tasks (workers s) ∧
      (length (workers s) = 1%nat →
       dequeued s = invoked s ++ running_tasks (workers s)) ∧
      discarded s = [] ∧
      length (running_task_names p) = length (workers s) ∧
      thread_count p = Z.of_nat (length (workers s)) ∧
      (0 < length (workers s))%nat ∧
      (shutdown p = 0 → WExit ∉ workers s)
  | None =>
    submitted s = dequeued s ++ discarded s ∧
    dequeued s ≡ₚ invoked s ∧
    (length (workers s) = 1%nat → dequeued s = invoked s)
  end.

(** What the status slot of a worker holds: a full buffer that reads as the
    idle sentinel, or as the name of the task the worker took. *)
Definition slot_ok (w : worker_pc) (slot : list ascii) : Prop :=
  length slot = MAX_TASK_NAME_LEN ∧
  match w with
  | WRun t => c_str slot = take (MAX_TASK_NAME_LEN - 1) (c_str (task_name t))
  | _ => slot = idle_slot
  end.

Definition slots_inv (s : sys) : Prop :=
  match pools (mem s) !! handle s with
  | Some p => Forall2 slot_ok (workers s) (running_task_names p)
  | None => True
  end.

(** Once a worker has exited the queue is empty, and the drain finds nothing;
    this holds as long as no task-copy allocation fails. *)
Definition drained_inv (s : sys) : Prop :=
  match pools (mem s) !! handle s with
  | Some p => WExit ∈ workers s → task_queue_size p = 0
  | None => discarded s = []
  end.

(** The shutdown flag is set, or the pool is gone. *)
Definition closed (s : sys) : Prop :=
  match pools (mem s) !! handle s with
  | Some p => shutdown p ≠ 0
  | None => True
  end.

Definition boot_run (num_threads : Z) (env : create_env) (sched : list label)
  : option sys :=
  s0 ← boot num_threads env; run s0 sched.

Arguments task_enqueue_internal : simpl never.
Arguments task_dequeue_internal : simpl never.
Arguments task_queue_destroy_internal : simpl never.
Arguments worker_dispatch : simpl never.
Arguments worker_finish : simpl never.
Arguments thread_pool_add_task : simpl never.
Arguments thread_pool_destroy_begin : simpl never.
Arguments thread_pool_destroy_finish : simpl never.
Arguments queued_tasks : simpl never.
Arguments step : simpl never.
Arguments snprintf_s : simpl never.
Arguments copy_name : simpl never.
Arguments prepare_task_name : simpl never.

(** ** Concrete scenarios *)

(** Every fallible step of [thread_pool_create] succeeds; the pool
    structure is placed at [a]. *)
Definition env_ok (a : positive) : create_env :=
  CreateEnv (Some a) true true true true (λ _, true) (λ _, true).

Definition names_env_ok : names_env := NamesEnv true (λ _, true).

(** A Submit of the function at address 7 under the name ["T1"]; its queue
    node is allocated at address 1. *)
Definition submit_T1 : label :=
  LSubmit (Some 7%positive) None (Some (lit "T1")) (Some 1%positive).

Definition task_T1 : task_t :=
  Task (Some 7%positive) None (prepare_task_name (Some (lit "T1"))).

(** A pool of one worker with a queue of [size] nodes from [hd] to [tl]. *)
Definition pool1 (hd tl : ptr) (size sd : Z) : thread_pool_s :=
  Pool 1 hd tl size sd 1 [idle_slot].

(** One worker, [task_T1] submitted and still queued, no shutdown. *)
Definition sys_T1_queued : sys :=
  Sys (Mem {[1%positive := Node task_T1 None]}
           {[1%positive := pool1 (Some 1%positive) (Some 1%positive) 1 0]})
      1%positive [WLoop] [task_T1] [] [] [] 1.

(** The same after Destroy set the flag and the worker's task-copy
    allocation failed: the worker has exited, the task is still queued. *)
Definition sys_T1_stranded : sys :=
  Sys (Mem {[1%positive := Node task_T1 None]}
           {[1%positive := pool1 (Some 1%positive) (Some 1%positive) 1 1]})
      1%positive [WExit] [task_T1] [] [] [] 1.

(** After a whole life in which the worker ran [task_T1]. *)
Definition sys_T1_done : sys :=
  Sys (Mem ∅ ∅) 1%positive [WExit] [task_T1] [task_T1] [task_T1] [] 1.

(** The schedule of that life after the Submit: Destroy sets the flag,
    then the worker takes the task, runs it, exits, and the join returns. *)
Definition drain_after_flag : list label :=
  [LWork 0 true; LRun 0; LWork 0 true; LJoin].

Definition shutdown_and_drain : list label := LDestroy :: drain_after_flag.

(** A pool of one worker right after its creation. *)
Definition mem_created : memory :=
  Mem ∅ {[1%positive := pool1 None None 0 0]}.

(** The program after Create(1) and one completed Destroy. *)
Definition sys_destroyed : sys :=
  Sys (Mem ∅ ∅) 1%positive [WExit] [] [] [] [] 0.

(** The handle is [NULL] or points to a pool whose queue is well formed and
    not at the limit of its [int] counter. *)
Definition handle_ok (m : memory) (pool : ptr) : Prop :=
  match pool with
  | None => True
  | Some a =>
    ∃ p, pools m !! a = Some p ∧ queue_wf (nodes m) p ∧
         task_queue_size p < INT_MAX
  end.

(** What [thread_pool_get_running_task_names] copies from an idle slot. *)
Definition idle_copy : list ascii :=
  <[(MAX_TASK_NAME_LEN - 1)%nat := NUL]> (strncpy uninit_buf idle_slot MAX_TASK_NAME_LEN).

(** ** Further notions for the lifecycle *)



(** The allocated queue nodes are those the recorded length counts; none is
    left once the pool is gone. *)
Definition nodes_inv (s : sys) : Prop :=
  match pools (mem s) !! handle s with
  | Some p => Z.of_nat (size (nodes (mem s))) = task_queue_size p
  | None => nodes (mem s) = ∅
  end.

(** Create(1), a Submit and Destroy's first part: the flag is set, the task
    is queued and the worker has not run yet. *)
Definition sys_T1_flagged : sys :=
  Sys (Mem {[1%positive := Node task_T1 None]}
           {[1%positive := pool1 (Some 1%positive) (Some 1%positive) 1 1]})
      1%positive [WLoop] [task_T1] [] [] [] 1.

(** What the status query shows for a worker: the sentinel, or the name of
    the task the worker holds, cut like every name. *)
Definition shown_name (w : worker_pc) : list ascii :=
  match w with
  | WRun t => take (MAX_TASK_NAME_LEN - 1) (c_str (task_name t))
  | _ => lit "[idle]"
  end.

(** The copy that [thread_pool_get_running_task_names] makes of a slot. *)
Definition slot_copy (slot : list ascii) : list ascii :=
  <[(MAX_TASK_NAME_LEN - 1)%nat := NUL]> (strncpy uninit_buf slot MAX_TASK_NAME_LEN).

(** Create(1), a Submit, and the worker has taken the task: the slot shows
    its name. *)
Definition sys_T1_running : sys :=
  Sys (Mem ∅ {[1%positive :=
                 Pool 1 None None 0 0 1
                      [snprintf_s idle_slot MAX_TASK_NAME_LEN (task_name task_T1)]]})
      1%positive [WRun task_T1] [task_T1] [task_T1] [] [] 1.

(** The workers that are in their loop, neither running a task nor gone. *)
Fixpoint count_loop (ws : list worker_pc) : nat :=
  match ws with
  | [] => O
  | WLoop :: ws' => S (count_loop ws')
  | _ :: ws' => count_loop ws'
  end.

(** The pool lives with its flag set and [size] tasks recorded, and the
    invariant holds. *)
Definition flagged_live (s : sys) (size : Z) : Prop :=
  sys_inv s ∧
  ∃ p, pools (mem s) !! handle s = Some p ∧ shutdown p ≠ 0 ∧
       task_queue_size p = size.

(** ** The blocks behind the status copies

    [thread_pool_get_running_task_names] returns freshly allocated memory that
    [free_running_task_names] releases. Here the two functions are followed
    block by block: a heap of blocks, each a [char] buffer or an array of
    [char *]. The entries of a new array are not initialised; they are
    written before they are read, and [NULL] stands for them until then. *)

Inductive block :=
  | BufBlock (b : list ascii)
  | ArrBlock (entries : list ptr).

(** The results of the allocations of [thread_pool_get_running_task_names]:
    the array, and the copy for worker [i]. *)
Record names_alloc := NamesAlloc {
  alloc_array : ptr;
  alloc_copy : nat → ptr
}.

(** [free(q)]: nothing for [NULL], undefined for a block that is not
    allocated. *)
Definition free_block (hb : gmap positive block) (q : ptr)
  : option (gmap positive block) :=
  match q with
  | None => Some hb
  | Some c => _ ← hb !! c; Some (delete c hb)
  end.

(** [for (j = ...; ...; j++) free(task_names[j])], from index [j], [n] to go. *)
Fixpoint free_entries (hb : gmap positive block) (arr : positive) (j n : nat)
  : option (gmap positive block) :=
  match n with
  | O => Some hb
  | S n' =>
    blk ← hb !! arr;
    match blk with
    | ArrBlock es =>
      e ← es !! j;
      hb' ← free_block hb e;
      free_entries hb' arr (S j) n'
    | BufBlock _ => None
    end
  end.

(** [free_running_task_names(task_names, count)]. *)
Definition free_running_task_names (hb : gmap positive block) (task_names : ptr)
    (count : Z) : option (gmap positive block) :=
  match task_names with
  | None => Some hb
  | Some arr =>
    if decide (count < 0) then free_block hb (Some arr)
    else
      hb' ← free_entries hb arr 0 (Z.to_nat count);
      free_block hb' (Some arr)
  end.

(** The copy loop of [thread_pool_get_running_task_names] with its blocks,
    from index [i], [n] to go; on a failed allocation the copies made so far
    and the array are freed and [NULL] is returned. *)
Fixpoint copy_names_blocks (env : names_alloc) (slots : list (list ascii))
    (arr : positive) (i n : nat) (hb : gmap positive block)
  : option (gmap positive block * ptr) :=
  match n with
  | O => Some (hb, Some arr)
  | S n' =>
    blk ← hb !! arr;
    match blk with
    | ArrBlock es =>
      _ ← es !! i;
      let hb1 := <[arr := ArrBlock (<[i := alloc_copy env i]> es)]> hb in
      match alloc_copy env i with
      | None =>
        hb2 ← free_entries hb1 arr 0 i;
        hb3 ← free_block hb2 (Some arr);
        Some (hb3, None)
      | Some c =>
        slot ← slots !! i;
        copy_names_blocks env slots arr (S i) n' (<[c := BufBlock (slot_copy slot)]> hb1)
      end
    | BufBlock _ => None
    end
  end.

Definition thread_pool_get_running_task_names_blocks (m : memory)
    (hb : gmap positive block) (pool : ptr) (env : names_alloc)
  : option (gmap positive block * ptr) :=
  match pool with
  | None => Some (hb, None)
  | Some a =>
    p ← pools m !! a;
    match alloc_array env with
    | None => Some (hb, None)
    | Some arr =>
      copy_names_blocks env (running_task_names p) arr 0 (Z.to_nat (thread_count p))
        (<[arr := ArrBlock (replicate (Z.to_nat (thread_count p)) None)]> hb)
    end
  end.

(** [malloc] hands out blocks that are not allocated, each one once. *)
Definition names_alloc_fresh (hb : gmap positive block) (n : nat)
    (env : names_alloc) : Prop :=
  (∀ arr, alloc_array env = Some arr → hb !! arr = None) ∧
  (∀ i c, (i < n)%nat → alloc_copy env i = Some c →
          hb !! c = None ∧ alloc_array env ≠ Some c) ∧
  (∀ i j c, (i < j < n)%nat → alloc_copy env i = Some c → alloc_copy env j ≠ Some c).

(** The heap of blocks while the copies [cbs] (address and content, in the
    order of the workers) and the array [arr] with entries [es] are
    allocated. *)
Definition with_copies (hb : gmap positive block) (arr : positive) (es : list ptr)
    (cbs : list (positive * list ascii)) : gmap positive block :=
  <[arr := ArrBlock es]> (foldr (λ cb acc, <[cb.1 := BufBlock cb.2]> acc) hb cbs).

(** Allocations for one worker: the array at 10, the copy at 11. *)
Definition names_alloc_demo : names_alloc :=
  NamesAlloc (Some 10%positive) (λ _, Some 11%positive).

(** The copies that the loop makes from index [i] on, [n] of them, with
    their addresses; [None] when one of the allocations fails. *)
Fixpoint planned_copies (env : names_alloc) (slots : list (list ascii)) (i n : nat)
  : option (list (positive * list ascii)) :=
  match n with
  | O => Some []
  | S n' =>
    c ← alloc_copy env i;
    slot ← slots !! i;
    rest ← planned_copies env slots (S i) n';
    Some ((c, slot_copy slot) :: rest)
  end.

(** * Proofs

    ** C strings *)

Lemma c_str_no_nul s : NUL ∉ c_str s.
Proof.
  induction s as [|c s IH]; simpl; [apply not_elem_of_nil|].
  destruct (Ascii.eqb c NUL) eqn:E; [apply not_elem_of_nil|].
  apply not_elem_of_cons; split; [|done].
  intros Hc. subst c. by rewrite Ascii.eqb_refl in E.
Qed.

Lemma c_str_app_nul a r : NUL ∉ a → c_str (a ++ NUL :: r) = a.
Proof.
  induction a as [|c a IH]; simpl; intros Hn.
  - done.
  - apply not_elem_of_cons in Hn as [Hc Ha].
    destruct (Ascii.eqb c NUL) eqn:E.
    + apply Ascii.eqb_eq in E. congruence.
    + by rewrite IH.
Qed.

Lemma take_c_str_no_nul k s : NUL ∉ take k (c_str s).
Proof. intros H. apply (c_str_no_nul s). by apply (subseteq_take k). Qed.

Lemma copy_name_eq buf s :
  length buf = MAX_TASK_NAME_LEN →
  copy_name buf s =
    take 63 (c_str s) ++ replicate (64 - length (take 63 (c_str s))) NUL.
Proof.
  intros Hlen. unfold copy_name, strncpy, MAX_TASK_NAME_LEN in *.
  change (64 - 1)%nat with 63%nat.
  set (a := take 63 (c_str s)).
  assert (Ha : (length a ≤ 63)%nat) by (subst a; rewrite length_take; lia).
  destruct (drop 63 buf) as [|x [|y r]] eqn:Hd;
    (assert (Hl := f_equal length Hd); rewrite length_drop in Hl; simpl in Hl; try lia).
  rewrite app_assoc.
  rewrite insert_app_r_alt by (rewrite length_app, length_replicate; lia).
  rewrite length_app, length_replicate.
  replace (63 - (length a + (63 - length a)))%nat with 0%nat by lia. simpl.
  rewrite <- app_assoc. f_equal.
  replace (64 - length a)%nat with ((63 - length a) + 1)%nat by lia.
  by rewrite replicate_add.
Qed.

Lemma copy_name_length buf s :
  length buf = MAX_TASK_NAME_LEN → length (copy_name buf s) = MAX_TASK_NAME_LEN.
Proof.
  intros H. rewrite copy_name_eq by done.
  rewrite length_app, length_replicate, length_take. unfold MAX_TASK_NAME_LEN. lia.
Qed.

Lemma copy_name_c_str buf s :
  length buf = MAX_TASK_NAME_LEN → c_str (copy_name buf s) = take 63 (c_str s).
Proof.
  intros H. rewrite copy_name_eq by done.
  assert (Hl : (length (take 63 (c_str s)) ≤ 63)%nat) by (rewrite length_take; lia).
  destruct (64 - length (take 63 (c_str s)))%nat as [|k] eqn:E; [lia|].
  simpl. apply c_str_app_nul, take_c_str_no_nul.
Qed.

Lemma copy_name_terminated buf s :
  length buf = MAX_TASK_NAME_LEN → copy_name buf s !! 63%nat = Some NUL.
Proof.
  intros H. unfold copy_name. change (MAX_TASK_NAME_LEN - 1)%nat with 63%nat.
  apply list_lookup_insert_eq.
  unfold strncpy. rewrite !length_app, length_replicate, length_drop, length_take.
  unfold MAX_TASK_NAME_LEN in H. lia.
Qed.

(** The initial content of a buffer does not show after [copy_name]. *)
Lemma strncpy_terminated_any b1 b2 s :
  length b1 = MAX_TASK_NAME_LEN → length b2 = MAX_TASK_NAME_LEN →
  copy_name b1 s = copy_name b2 s.
Proof. intros H1 H2. by rewrite !copy_name_eq. Qed.

(** ** The queue operations on a well-formed queue *)

Section queue.
Implicit Types (h : gmap positive task_node_t) (p : ptr) (pool : thread_pool_s).
Implicit Types (ns : list (positive * task_t)) (n l : positive) (t : task_t).

Lemma lseg_allocated h p ns l : lseg h p ns → l ∈ ns.*1 → is_Some (h !! l).
Proof.
  revert p. induction ns as [|[l' t'] ns IH]; simpl; intros p Hs Hin.
  - by apply elem_of_nil in Hin.
  - destruct Hs as (_ & nx & Hl & Hs). apply elem_of_cons in Hin as [->|Hin]; eauto.
Qed.

Lemma lseg_insert_other h p ns l nd :
  l ∉ ns.*1 → lseg h p ns → lseg (<[l := nd]> h) p ns.
Proof.
  revert p. induction ns as [|[l' t'] ns IH]; simpl; intros p Hni Hs; [done|].
  apply not_elem_of_cons in Hni as [Hne Hni].
  destruct Hs as (-> & nx & Hl & Hs). split; [done|]. exists nx. split; [|by apply IH].
  by rewrite lookup_insert_ne.
Qed.

Lemma lseg_delete_other h p ns l :
  l ∉ ns.*1 → lseg h p ns → lseg (delete l h) p ns.
Proof.
  revert p. induction ns as [|[l' t'] ns IH]; simpl; intros p Hni Hs; [done|].
  apply not_elem_of_cons in Hni as [Hne Hni].
  destruct Hs as (-> & nx & Hl & Hs). split; [done|]. exists nx. split; [|by apply IH].
  by rewrite lookup_delete_ne.
Qed.

(** Linking a new last node behind the old tail. *)
Lemma lseg_link_tail h p ns tl n t :
  lseg h p ns → NoDup ns.*1 → last ns.*1 = Some tl → n ∉ ns.*1 →
  h !! n = Some (Node t None) →
  ∃ nd, h !! tl = Some nd ∧
        lseg (<[tl := Node (task nd) (Some n)]> h) p (ns ++ [(n, t)]).
Proof.
  revert p. induction ns as [|[l t0] ns IH]; simpl; intros p Hs Hnd Hlast Hni Hn.
  - discriminate.
  - destruct Hs as (-> & nx & Hl & Hs).
    apply NoDup_cons in Hnd as [Hlni Hnd].
    apply not_elem_of_cons in Hni as [Hne Hni].
    destruct ns as [|[l1 t1] ns'].
    + simpl in *. simplify_eq. exists (Node t0 None). split; [done|].
      split; [done|]. exists (Some n). rewrite lookup_insert_eq. split; [done|].
      split; [done|]. exists None. by rewrite lookup_insert_ne.
    + change (last (l :: ((l1, t1) :: ns').*1)) with (last ((l1, t1) :: ns').*1) in Hlast.
      destruct (IH nx Hs Hnd Hlast Hni Hn) as (nd & Htl & Hs').
      exists nd. split; [done|]. split; [done|]. exists nx. split; [|done].
      rewrite lookup_insert_ne; [done|].
      intros <-. apply Hlni. eapply last_Some_elem_of; eauto.
Qed.

Lemma queue_rep_fields_ok h pool ns : queue_rep h pool ns → queue_fields_ok pool.
Proof.
  intros (Hs & _ & Ht & Hsz). unfold queue_fields_ok.
  destruct ns as [|[l t] ns].
  - simpl in *. by rewrite Hs, Ht, Hsz.
  - destruct Hs as (Hh & _).
    assert (is_Some (last ((l, t) :: ns).*1)) as [x Hx] by by apply last_is_Some.
    rewrite Hh, Ht, Hx, Hsz. simpl length.
    split; split; try done; try lia. by intros [? _].
Qed.

Lemma enqueue_rep h pool ns t n :
  queue_rep h pool ns → h !! n = None → task_queue_size pool < INT_MAX →
  ∃ h' pool',
    task_enqueue_internal h pool t (Some n) = Some (h', pool', 0) ∧
    queue_rep h' pool' (ns ++ [(n, t)]) ∧
    h' !! n = Some (Node t None) ∧
    thread_count pool' = thread_count pool ∧ shutdown pool' = shutdown pool ∧
    started pool' = started pool ∧
    running_task_names pool' = running_task_names pool.
Proof.
  intros (Hs & Hnd & Ht & Hsz) Hn Hlt.
  assert (Hni : n ∉ ns.*1).
  { intros Hin. destruct (lseg_allocated _ _ _ _ Hs Hin) as [? ?]. congruence. }
  unfold task_enqueue_internal.
  destruct ns as [|[l0 t0] ns0] eqn:Ens.
  - simpl in *. rewrite Ht. simpl.
    unfold int_incr. rewrite decide_True by done. simpl.
    eexists _, _. split; [done|].
    split; [|by rewrite lookup_insert_eq].
    repeat split; simpl; try done.
    + exists None. by rewrite lookup_insert_eq.
    + apply NoDup_singleton.
    + lia.
  - rewrite <- Ens in *.
    assert (is_Some (last ns.*1)) as [tl Htl].
    { apply last_is_Some. by rewrite Ens. }
    rewrite Ht, Htl.
    destruct (lseg_link_tail (<[n := Node t None]> h) (head pool) ns tl n t)
      as (nd & Hlk & Hs'); try done.
    { by apply lseg_insert_other. }
    { by rewrite lookup_insert_eq. }
    simpl. rewrite Hlk. simpl.
    unfold int_incr. rewrite decide_True by done. simpl.
    eexists _, _. split; [done|].
    assert (tl ≠ n).
    { intros ->. apply Hni. eapply last_Some_elem_of; eauto. }
    split; [|by rewrite lookup_insert_ne, lookup_insert_eq].
    repeat split; simpl; try done.
    + rewrite fmap_app. simpl. apply NoDup_app. repeat split; try done.
      * intros x Hx Hx'. apply list_elem_of_singleton in Hx'. by subst.
      * apply NoDup_singleton.
    + rewrite fmap_app. simpl. by rewrite last_snoc.
    + rewrite length_app. simpl. lia.
Qed.

Lemma dequeue_rep h pool ns l t :
  queue_rep h pool ((l, t) :: ns) →
  ∃ pool',
    task_dequeue_internal h pool true = Some (delete l h, pool', Some t) ∧
    queue_rep (delete l h) pool' ns ∧
    thread_count pool' = thread_count pool ∧ shutdown pool' = shutdown pool ∧
    started pool' = started pool ∧
    running_task_names pool' = running_task_names pool.
Proof.
  intros (Hs & Hnd & Ht & Hsz). simpl in *.
  destruct Hs as (Hh & nx & Hl & Hs).
  apply NoDup_cons in Hnd as [Hlni Hnd].
  unfold task_dequeue_internal. rewrite Hh. simpl. rewrite Hl. simpl.
  unfold int_decr.
  assert (Hsz' : INT_MIN < task_queue_size pool) by (rewrite Hsz; unfold INT_MIN; lia).
  destruct nx as [l1|]; simpl.
  - rewrite decide_True by done. simpl. eexists. split; [done|].
    repeat split; simpl; try done.
    + by apply lseg_delete_other.
    + rewrite Ht. destruct ns as [|[l1' t1] ns']; simpl in *; [done|].
      done.
    + lia.
  - rewrite decide_True by done. simpl. eexists. split; [done|].
    destruct ns as [|[l1' t1] ns']; simpl in *; [|by destruct Hs].
    repeat split; simpl; try done. lia.
Qed.

Lemma foldr_delete_commute h l (ls : list positive) :
  foldr delete (delete l h) ls = delete l (foldr delete h ls).
Proof.
  induction ls as [|x xs IH]; simpl; [done|]. by rewrite IH, delete_delete.
Qed.

Lemma free_nodes_rep fuel h p ns :
  lseg h p ns → NoDup ns.*1 → (length ns < fuel)%nat →
  free_nodes fuel h p = Some (foldr delete h ns.*1).
Proof.
  revert h p ns. induction fuel as [|fuel IH]; intros h p ns Hs Hnd Hf; [lia|].
  destruct ns as [|[l t] ns]; simpl in *.
  - by subst.
  - destruct Hs as (-> & nx & Hl & Hs). apply NoDup_cons in Hnd as [Hlni Hnd].
    rewrite Hl. simpl.
    assert (Hrec : free_nodes fuel (delete l h) nx = Some (foldr delete (delete l h) ns.*1)).
    { apply IH; [by apply lseg_delete_other|done|lia]. }
    rewrite Hrec. f_equal. apply foldr_delete_commute.
Qed.

Lemma queue_rep_length_le h pool ns : queue_rep h pool ns → (length ns ≤ size h)%nat.
Proof.
  intros (Hs & Hnd & _ & _).
  rewrite <- (length_fmap fst ns), <- length_map_to_list, <- (length_fmap fst (map_to_list h)).
  apply submseteq_length, NoDup_submseteq; [done|].
  intros x Hx. destruct (lseg_allocated _ _ _ _ Hs Hx) as [nd Hnd'].
  apply list_elem_of_fmap. exists (x, nd). split; [done|]. by apply elem_of_map_to_list.
Qed.

Lemma drain_rep h pool ns :
  queue_rep h pool ns →
  ∃ pool',
    task_queue_destroy_internal h pool = Some (foldr delete h ns.*1, pool') ∧
    queue_rep (foldr delete h ns.*1) pool' [] ∧
    thread_count pool' = thread_count pool ∧ shutdown pool' = shutdown pool ∧
    running_task_names pool' = running_task_names pool.
Proof.
  intros Hrep. pose proof (queue_rep_length_le _ _ _ Hrep) as Hle.
  destruct Hrep as (Hs & Hnd & Ht & Hsz).
  unfold task_queue_destroy_internal.
  rewrite (free_nodes_rep _ _ _ ns) by (done || lia). simpl.
  eexists. split; [done|]. repeat split; simpl; try done. apply NoDup_nil_2.
Qed.

Lemma walk_rep fuel h p ns :
  lseg h p ns → (length ns ≤ fuel)%nat → walk fuel h p = ns.*2.
Proof.
  revert p ns. induction fuel as [|fuel IH]; intros p ns Hs Hf.
  - destruct ns; simpl in *; [done|lia].
  - destruct ns as [|[l t] ns]; simpl in *.
    + by subst.
    + destruct Hs as (-> & nx & Hl & Hs). rewrite Hl. simpl. f_equal.
      apply IH; [done|lia].
Qed.

Lemma queued_tasks_rep h pool ns : queue_rep h pool ns → queued_tasks h pool = ns.*2.
Proof.
  intros Hrep. apply walk_rep; [apply Hrep|]. by eapply queue_rep_length_le.
Qed.
End queue.

(** ** Auxiliary facts on enqueue and on the workers' states *)

Lemma enqueue_overflow h pool ns t n :
  queue_rep h pool ns → h !! n = None → ¬ task_queue_size pool < INT_MAX →
  task_enqueue_internal h pool t (Some n) = None.
Proof.
  intros (Hs & Hnd & Ht & Hsz) Hn Hlt.
  unfold task_enqueue_internal, int_incr.
  destruct (last ns.*1) as [tl|] eqn:Htl; rewrite Ht; simpl.
  - assert (Hin : tl ∈ ns.*1) by (by eapply last_Some_elem_of).
    destruct (lseg_allocated _ _ _ _ Hs Hin) as [nd Hl].
    assert (tl ≠ n) by congruence.
    rewrite lookup_insert_ne, Hl by done. simpl. by rewrite decide_False.
  - by rewrite decide_False.
Qed.

Lemma enqueue_inv h pool ns t n h' pool' r :
  queue_rep h pool ns → h !! n = None →
  task_enqueue_internal h pool t (Some n) = Some (h', pool', r) →
  r = 0 ∧ queue_rep h' pool' (ns ++ [(n, t)]) ∧
  thread_count pool' = thread_count pool ∧ shutdown pool' = shutdown pool ∧
  running_task_names pool' = running_task_names pool.
Proof.
  intros Hrep Hn Heq.
  destruct (decide (task_queue_size pool < INT_MAX)) as [Hlt|Hge].
  - destruct (enqueue_rep h pool ns t n Hrep Hn Hlt)
      as (h2 & p2 & Heq2 & Hrep2 & _ & Htc & Hsd & _ & Hnm).
    rewrite Heq2 in Heq. by simplify_eq.
  - by rewrite (enqueue_overflow h pool ns t n) in Heq.
Qed.

Lemma queue_rep_size_zero h pool ns :
  queue_rep h pool ns → (task_queue_size pool = 0 ↔ ns = []).
Proof.
  intros (_ & _ & _ & ->). destruct ns; simpl; split; try done; lia.
Qed.

Section workers.
Implicit Types (ws : list worker_pc) (i : nat) (t : task_t).

Lemma running_tasks_dispatch ws i t :
  ws !! i = Some WLoop → running_tasks (<[i := WRun t]> ws) ≡ₚ t :: running_tasks ws.
Proof.
  revert i. induction ws as [|w ws IH]; intros [|i] Hi; simpl in *; try done.
  - by simplify_eq.
  - destruct w; simpl; rewrite ?IH by done; try done. apply Permutation_swap.
Qed.

Lemma running_tasks_idle ws i w :
  ws !! i = Some WLoop → w = WLoop ∨ w = WExit →
  running_tasks (<[i := w]> ws) = running_tasks ws.
Proof.
  revert i. induction ws as [|w0 ws IH]; intros [|i] Hi Hw; simpl in *; try done.
  - simplify_eq. by destruct Hw as [-> | ->].
  - destruct w0; simpl; by rewrite ?IH.
Qed.

Lemma running_tasks_finish ws i t :
  ws !! i = Some (WRun t) →
  running_tasks ws ≡ₚ t :: running_tasks (<[i := WLoop]> ws).
Proof.
  revert i. induction ws as [|w ws IH]; intros [|i] Hi; simpl in *; try done.
  - by simplify_eq.
  - destruct w; simpl; rewrite ?(IH i) by done; try done. apply Permutation_swap.
Qed.

Lemma running_tasks_exited ws : forallb exited ws = true → running_tasks ws = [].
Proof.
  induction ws as [|w ws IH]; simpl; [done|].
  destruct w; simpl; try done; apply IH.
Qed.

Lemma exited_elem ws : forallb exited ws = true → (0 < length ws)%nat → WExit ∈ ws.
Proof.
  destruct ws as [|w ws]; simpl; [lia|]. destruct w; simpl; try done.
  intros _ _. apply elem_of_cons. by left.
Qed.

Lemma elem_of_insert_inv {A} (l : list A) i x y : y ∈ <[i := x]> l → y = x ∨ y ∈ l.
Proof.
  revert i. induction l as [|z l IH]; intros [|i]; simpl; intros Hy; try by right.
  - apply elem_of_cons in Hy as [->|Hy]; [by left|]. right. by apply elem_of_cons; right.
  - apply elem_of_cons in Hy as [->|Hy]; [right; by apply elem_of_cons; left|].
    destruct (IH _ Hy) as [->|?]; [by left|right; by apply elem_of_cons; right].
Qed.
End workers.

(** ** The steps of the system, one by one *)

(** Two lookups of the pool at the same handle give the same pool. *)
Ltac same_pool Hp Hq := rewrite Hp in Hq; injection Hq as <-.

Lemma step_freed s l : pools (mem s) !! handle s = None → step s l = None.
Proof.
  intros Hp. destruct l; unfold step; rewrite ?Hp; simpl; try done.
  - by destruct (negb _).
  - by destruct (workers s !! thread_id) as [[]|].
  - by destruct (workers s !! thread_id) as [[]|].
  - unfold thread_pool_destroy_begin. by rewrite Hp.
Qed.

Lemma step_submit_inv s f a name nn s' :
  step s (LSubmit f a name nn) = Some s' →
  ∃ p m' r,
    malloc_result_ok (nodes (mem s)) nn = true ∧
    pools (mem s) !! handle s = Some p ∧
    thread_pool_add_task (mem s) (Some (handle s)) f a name nn = Some (m', r) ∧
    s' = Sys m' (handle s) (workers s)
             (if decide (r = 0)
              then submitted s ++ [Task f a (prepare_task_name name)]
              else submitted s)
             (dequeued s) (invoked s) (discarded s)
             (enqueue_calls s +
              match f with
              | Some _ => if decide (shutdown p ≠ 0) then O else 1%nat
              | None => O
              end).
Proof.
  unfold step. destruct (malloc_result_ok _ _) eqn:Hm; simpl; [|done].
  destruct (pools (mem s) !! handle s) as [p|] eqn:Hp; simpl; [|done].
  destruct (thread_pool_add_task _ _ _ _ _ _) as [[m' r]|] eqn:Ha; simpl; [|done].
  intros [= <-]. by exists p, m', r.
Qed.

Lemma step_work_inv s i ok s' :
  step s (LWork i ok) = Some s' →
  ∃ p h' p' pc,
    workers s !! i = Some WLoop ∧
    pools (mem s) !! handle s = Some p ∧
    worker_dispatch (nodes (mem s)) p i ok = Some (h', p', pc) ∧
    s' = Sys (Mem h' (<[handle s := p']> (pools (mem s)))) (handle s)
             (<[i := pc]> (workers s)) (submitted s)
             (match pc with WRun t => dequeued s ++ [t] | _ => dequeued s end)
             (invoked s) (discarded s) (enqueue_calls s).
Proof.
  unfold step. destruct (workers s !! i) as [[]|] eqn:Hw; try done.
  destruct (pools (mem s) !! handle s) as [p|] eqn:Hp; simpl; [|done].
  destruct (worker_dispatch _ _ _ _) as [[[h' p'] pc]|] eqn:Hd; simpl; [|done].
  intros [= <-]. by exists p, h', p', pc.
Qed.

Lemma step_run_inv s i s' :
  step s (LRun i) = Some s' →
  ∃ t p p',
    workers s !! i = Some (WRun t) ∧
    pools (mem s) !! handle s = Some p ∧
    worker_finish p i = Some p' ∧
    s' = Sys (Mem (nodes (mem s)) (<[handle s := p']> (pools (mem s))))
             (handle s) (<[i := WLoop]> (workers s))
             (submitted s) (dequeued s) (invoked s ++ [t]) (discarded s)
             (enqueue_calls s).
Proof.
  unfold step. destruct (workers s !! i) as [[]|] eqn:Hw; try done.
  destruct (pools (mem s) !! handle s) as [p|] eqn:Hp; simpl; [|done].
  destruct (worker_finish _ _) as [p'|] eqn:Hd; simpl; [|done].
  intros [= <-]. by exists t, p, p'.
Qed.

Lemma step_destroy_inv s s' :
  step s LDestroy = Some s' →
  ∃ p m' r,
    pools (mem s) !! handle s = Some p ∧
    thread_pool_destroy_begin (mem s) (Some (handle s)) = Some (m', r) ∧
    s' = Sys m' (handle s) (workers s) (submitted s) (dequeued s) (invoked s)
             (discarded s) (enqueue_calls s).
Proof.
  unfold step. destruct (thread_pool_destroy_begin _ _) as [[m' r]|] eqn:Hd; simpl; [|done].
  intros [= <-].
  destruct (pools (mem s) !! handle s) as [p|] eqn:Hp.
  - by exists p, m', r.
  - unfold thread_pool_destroy_begin in Hd. by rewrite Hp in Hd.
Qed.

Lemma step_join_inv s s' :
  step s LJoin = Some s' →
  ∃ p m' r,
    pools (mem s) !! handle s = Some p ∧ shutdown p ≠ 0 ∧
    forallb exited (workers s) = true ∧
    thread_pool_destroy_finish (mem s) (handle s) = Some (m', r) ∧
    s' = Sys m' (handle s) (workers s) (submitted s) (dequeued s) (invoked s)
             (queued_tasks (nodes (mem s)) p) (enqueue_calls s).
Proof.
  unfold step. destruct (pools (mem s) !! handle s) as [p|] eqn:Hp; simpl; [|done].
  destruct (decide _) as [Hs|]; [|done].
  destruct (forallb _ _) eqn:Hf; [|done].
  destruct (thread_pool_destroy_finish _ _) as [[m' r]|] eqn:Hd; simpl; [|done].
  intros [= <-]. by exists p, m', r.
Qed.

(** What a Submit does on a live pool whose queue is well formed. *)
Lemma add_task_live m a p ns f arg name nn m' r :
  pools m !! a = Some p → queue_rep (nodes m) p ns →
  malloc_result_ok (nodes m) nn = true →
  thread_pool_add_task m (Some a) f arg name nn = Some (m', r) →
  (r = -1 ∧ m' = m ∧
   (f = None ∨ shutdown p ≠ 0 ∨ nn = None)) ∨
  (r = 0 ∧ ∃ fp n h' p', f = Some fp ∧ nn = Some n ∧ shutdown p = 0 ∧
     m' = Mem h' (<[a := p']> (pools m)) ∧
     queue_rep h' p' (ns ++ [(n, Task f arg (prepare_task_name name))]) ∧
     thread_count p' = thread_count p ∧ shutdown p' = shutdown p ∧
     running_task_names p' = running_task_names p).
Proof.
  intros Hp Hrep Hm. unfold thread_pool_add_task.
  destruct f as [fp|]; [|intros [= <- <-]; left; eauto].
  rewrite Hp. simpl.
  destruct (decide (shutdown p ≠ 0)) as [Hs|Hs]; [intros [= <- <-]; left; eauto|].
  assert (shutdown p = 0) as Hs0 by lia.
  destruct nn as [n|].
  - apply bool_decide_eq_true in Hm.
    destruct (task_enqueue_internal _ _ _ _) as [[[h' p'] r']|] eqn:He; simpl; [|done].
    destruct (enqueue_inv _ _ _ _ _ _ _ _ Hrep Hm He) as (-> & Hrep' & Htc & Hsd & Hnm).
    rewrite decide_False by lia. intros [= <- <-]. right. split; [done|].
    by exists fp, n, h', p'.
  - simpl. intros [= <- <-]. left. split; [done|]. split; [|eauto].
    destruct m as [nd pl]. simpl in *. f_equal. by apply insert_id.
Qed.

Lemma run_cons s l sched s2 :
  run s (l :: sched) = Some s2 → ∃ s1, step s l = Some s1 ∧ run s1 sched = Some s2.
Proof. simpl. destruct (step s l) as [s1|]; simpl; [|done]. intros H. by exists s1. Qed.

(** ** The invariant is kept by every step *)

(** The three ways out of a worker's locked section. *)
Lemma dispatch_live h p ns i ok h' p' pc :
  queue_rep h p ns → worker_dispatch h p i ok = Some (h', p', pc) →
  (pc = WLoop ∧ h' = h ∧ p' = p ∧ shutdown p = 0 ∧ (ns = [] ∨ ok = false)) ∨
  (pc = WExit ∧ h' = h ∧ p' = p ∧ shutdown p ≠ 0 ∧ (ns = [] ∨ ok = false)) ∨
  (∃ l t ns' slot,
     ns = (l, t) :: ns' ∧ ok = true ∧ pc = WRun t ∧ h' = delete l h ∧
     queue_rep h' p' ns' ∧ shutdown p' = shutdown p ∧
     thread_count p' = thread_count p ∧
     running_task_names p !! i = Some slot ∧
     running_task_names p' =
       <[i := snprintf_s slot MAX_TASK_NAME_LEN (task_name t)]> (running_task_names p)).
Proof.
  intros Hrep. pose proof (queue_rep_size_zero _ _ _ Hrep) as Hz.
  unfold worker_dispatch.
  destruct (decide (task_queue_size p = 0 ∧ shutdown p = 0)) as [[Hq Hs]|Hn1].
  { intros [= <- <- <-]. left. repeat split; try done. left. by apply Hz. }
  destruct (decide (shutdown p ≠ 0 ∧ task_queue_size p = 0)) as [[Hs Hq]|Hn2].
  { intros [= <- <- <-]. right. left. repeat split; try done. left. by apply Hz. }
  assert (Hne : task_queue_size p ≠ 0) by lia.
  destruct ns as [|[l t] ns']; [by destruct Hne; apply Hz|].
  destruct ok.
  - destruct (dequeue_rep _ _ _ _ _ Hrep) as (p1 & Hd & Hrep1 & Htc & Hsd & _ & Hnm).
    rewrite Hd. simpl.
    destruct (running_task_names p1 !! i) as [slot|] eqn:Hslot; simpl; [|done].
    intros [= <- <- <-]. right. right. exists l, t, ns', slot.
    rewrite <- Hnm. repeat split; try done; apply Hrep1.
  - assert (Hh : head p = Some l) by (destruct Hrep as ((? & _) & _); done).
    unfold task_dequeue_internal. rewrite Hh. simpl.
    destruct (decide (shutdown p ≠ 0)) as [Hs|Hs]; intros [= <- <- <-].
    + right. left. repeat split; try done. by right.
    + left. repeat split; try done; [lia|by right].
Qed.

Lemma finish_live p i p' :
  worker_finish p i = Some p' →
  ∃ slot, running_task_names p !! i = Some slot ∧
    p' = set_running_task_names
           (<[i := copy_name slot (lit "[idle]")]> (running_task_names p)) p.
Proof.
  unfold worker_finish.
  destruct (running_task_names p !! i) as [slot|]; simpl; [|done].
  intros [= <-]. by exists slot.
Qed.

Lemma destroy_begin_live m a p m' r :
  pools m !! a = Some p →
  thread_pool_destroy_begin m (Some a) = Some (m', r) →
  (shutdown p ≠ 0 ∧ m' = m ∧ r = DestroyReturned 0) ∨
  (shutdown p = 0 ∧ m' = Mem (nodes m) (<[a := set_shutdown 1 p]> (pools m)) ∧
   r = DestroyJoining).
Proof.
  intros Hp. unfold thread_pool_destroy_begin. rewrite Hp. simpl.
  destruct (decide (shutdown p ≠ 0)); intros [= <- <-]; [by left|right].
  split; [lia|done].
Qed.

Lemma destroy_finish_live m a p ns m' r :
  pools m !! a = Some p → queue_rep (nodes m) p ns →
  thread_pool_destroy_finish m a = Some (m', r) →
  r = 0 ∧ m' = Mem (foldr delete (nodes m) ns.*1) (delete a (pools m)).
Proof.
  intros Hp Hrep. unfold thread_pool_destroy_finish. rewrite Hp. simpl.
  destruct (drain_rep _ _ _ Hrep) as (p1 & Hd & _). rewrite Hd. simpl.
  by intros [= <- <-].
Qed.

Lemma step_inv s l s' : sys_inv s → step s l = Some s' → sys_inv s'.
Proof.
  intros [Hcalls Hinv] Hstep.
  destruct (pools (mem s) !! handle s) as [p|] eqn:Hp;
    [|by rewrite step_freed in Hstep].
  destruct Hinv as (ns & Hrep & Hsub & Hperm & Hone & Hdis & Hlen & Htc & Hpos & Hexit).
  destruct l as [f a name nn|i ok|i| |].
  - (* Submit *)
    apply step_submit_inv in Hstep as (p0 & m' & r & Hm & Hp0 & Ha & ->).
    same_pool Hp Hp0.
    destruct (add_task_live _ _ _ _ _ _ _ _ _ _ Hp Hrep Hm Ha)
      as [(-> & -> & Hwhy)|(-> & fp & n & h' & p' & -> & -> & Hs0 & -> & Hrep' & Htc' & Hsd' & Hnm')].
    + split; simpl; [lia|]. rewrite Hp. exists ns. done.
    + split; simpl.
      * rewrite decide_False by lia. rewrite length_app. simpl. lia.
      * rewrite lookup_insert_eq. exists (ns ++ [(n, Task (Some fp) a (prepare_task_name name))]).
        rewrite fmap_app, app_assoc, <- Hsub. simpl.
        rewrite Hnm', Htc', Hsd'. done.
  - (* Work *)
    apply step_work_inv in Hstep as (p0 & h' & p' & pc & Hw & Hp0 & Hd & ->).
    same_pool Hp Hp0.
    assert (Hlen' : length (<[i := pc]> (workers s)) = length (workers s))
      by apply length_insert.
    destruct (dispatch_live _ _ _ _ _ _ _ _ Hrep Hd)
      as [(-> & -> & -> & Hs0 & _)|[(-> & -> & -> & Hs1 & _)|
          (l & t & ns' & slot & -> & -> & -> & -> & Hrep' & Hsd' & Htc' & Hslot & Hnm')]].
    + split; [done|]. simpl. rewrite lookup_insert_eq.
      rewrite list_insert_id by done. exists ns. destruct s; simpl in *. done.
    + split; [done|]. simpl. rewrite lookup_insert_eq. exists ns.
      rewrite running_tasks_idle by auto. rewrite Hlen'.
      repeat split; try done; apply Hrep.
    + split; [done|]. simpl. rewrite lookup_insert_eq. exists ns'.
      rewrite Hlen', Hnm', length_insert, Htc', Hsd'.
      split; [done|]. repeat split; try done.
      * rewrite Hsub. simpl. by rewrite <- app_assoc.
      * rewrite running_tasks_dispatch by done. rewrite Hperm.
        rewrite <- app_assoc. apply Permutation_app_head.
        symmetry. apply Permutation_cons_append.
      * intros Hl1. specialize (Hone Hl1).
        destruct (workers s) as [|w [|w' ws]]; simpl in *; try lia.
        destruct i; simpl in *; [|done]. simplify_eq. simpl in *.
        rewrite Hone. by rewrite !app_nil_r.
      * intros Hs0 Hin. apply elem_of_insert_inv in Hin as [?|Hin]; [done|].
        by apply Hexit.
  - (* Run *)
    apply step_run_inv in Hstep as (t & p0 & p' & Hw & Hp0 & Hf & ->).
    same_pool Hp Hp0.
    apply finish_live in Hf as (slot & Hslot & ->).
    split; [done|]. simpl. rewrite lookup_insert_eq. exists ns. simpl.
    rewrite !length_insert. split; [done|]. repeat split; try done.
    + rewrite Hperm. rewrite (running_tasks_finish _ _ _ Hw).
      rewrite <- app_assoc. apply Permutation_app_head. done.
    + intros Hl1. specialize (Hone Hl1).
      destruct (workers s) as [|w [|w' ws]]; simpl in *; try lia.
      destruct i; simpl in *; [|done]. simplify_eq. simpl in *.
      by rewrite app_nil_r.
    + intros Hs0 Hin. apply elem_of_insert_inv in Hin as [?|Hin]; [done|].
      by apply Hexit.
  - (* Destroy *)
    apply step_destroy_inv in Hstep as (p0 & m' & r & Hp0 & Hd & ->).
    same_pool Hp Hp0.
    destruct (destroy_begin_live _ _ _ _ _ Hp Hd) as [(Hs & -> & ->)|(Hs & -> & ->)].
    + split; [done|]. simpl. rewrite Hp. by exists ns.
    + split; [done|]. simpl. rewrite lookup_insert_eq. exists ns. simpl.
      repeat split; try done; apply Hrep.
  - (* Join *)
    apply step_join_inv in Hstep as (p0 & m' & r & Hp0 & Hs & Hall & Hd & ->).
    same_pool Hp Hp0.
    destruct (destroy_finish_live _ _ _ _ _ _ Hp Hrep Hd) as (-> & ->).
    split; [done|]. simpl. rewrite lookup_delete_eq.
    rewrite (queued_tasks_rep _ _ _ Hrep).
    rewrite (running_tasks_exited _ Hall), app_nil_r in Hperm, Hone.
    done.
Qed.

(** ** Creation, and the invariants along a run *)

Lemma alloc_names_some env i n acc names :
  alloc_names env i n acc = Some names → names = acc ++ replicate n idle_slot.
Proof.
  revert i acc. induction n as [|n IH]; simpl; intros i acc H.
  - simplify_eq. by rewrite app_nil_r.
  - destruct (malloc_name_ok env i); [|done].
    apply IH in H. by rewrite <- app_assoc in H.
Qed.

Lemma spawn_workers_some env i n st st' :
  spawn_workers env i n st = Some st' → st' = st + Z.of_nat n.
Proof.
  revert i st. induction n as [|n IH]; simpl; intros i st H.
  - simplify_eq. lia.
  - destruct (spawn_ok env i); [|done]. apply IH in H. lia.
Qed.

Lemma create_some m k env m' a :
  thread_pool_create m k env = (m', Some a) →
  0 < k ∧ calloc_pool env = Some a ∧
  m' = Mem (nodes m)
           (<[a := Pool k None None 0 0 k (replicate (Z.to_nat k) idle_slot)]>
              (pools m)).
Proof.
  unfold thread_pool_create.
  destruct (decide (k ≤ 0)); [done|].
  destruct (calloc_pool env) as [a0|]; [|done].
  destruct (mutex_init_ok env), (cond_init_ok env), (malloc_threads_ok env),
    (malloc_names_ok env); simpl; try done.
  destruct (alloc_names _ _ _ _) as [names|] eqn:Hn; [|done].
  destruct (spawn_workers _ _ _ _) as [st|] eqn:Hst; [|done].
  intros [= <- <-]. apply alloc_names_some in Hn. apply spawn_workers_some in Hst.
  simpl in Hn. subst. split; [lia|]. split; [done|].
  do 3 f_equal. lia.
Qed.

Lemma boot_some k env s0 :
  boot k env = Some s0 →
  ∃ a, 0 < k ∧
    s0 = Sys (Mem ∅ {[a := Pool k None None 0 0 k (replicate (Z.to_nat k) idle_slot)]})
             a (replicate (Z.to_nat k) WLoop) [] [] [] [] 0.
Proof.
  unfold boot.
  destruct (thread_pool_create _ _ _) as [m [a|]] eqn:Hc; [|done].
  intros [= <-]. apply create_some in Hc as (Hk & _ & ->). exists a. split; [done|].
  done.
Qed.

Lemma running_tasks_replicate_loop n : running_tasks (replicate n WLoop) = [].
Proof. induction n as [|n IH]; [done|]. exact IH. Qed.

Lemma boot_inv k env s0 :
  boot k env = Some s0 →
  sys_inv s0 ∧ drained_inv s0 ∧ length (workers s0) = Z.to_nat k ∧ 0 < k.
Proof.
  intros H. apply boot_some in H as (a & Hk & ->).
  assert (Hni : WExit ∉ replicate (Z.to_nat k) WLoop).
  { intros Hin. by apply elem_of_replicate in Hin as [? _]. }
  split; [|split; [|split]]; simpl.
  - split; simpl; [lia|]. rewrite lookup_singleton_eq. exists []. simpl.
    rewrite !length_replicate.
    rewrite running_tasks_replicate_loop.
    repeat split; try done; try lia. apply NoDup_nil_2.
  - unfold drained_inv. simpl. rewrite lookup_singleton_eq. done.
  - by rewrite length_replicate.
  - done.
Qed.

Lemma run_inv s sched s' : sys_inv s → run s sched = Some s' → sys_inv s'.
Proof.
  revert s. induction sched as [|l sched IH]; simpl; intros s Hinv H.
  - by simplify_eq.
  - destruct (step s l) as [s1|] eqn:Hs; simpl in H; [|done].
    eapply IH; [|done]. by eapply step_inv.
Qed.

Lemma step_workers_length s l s' :
  step s l = Some s' → length (workers s') = length (workers s).
Proof.
  destruct l.
  - intros H. apply step_submit_inv in H as (? & ? & ? & _ & _ & _ & ->). done.
  - intros H. apply step_work_inv in H as (? & ? & ? & ? & _ & _ & _ & ->).
    simpl. apply length_insert.
  - intros H. apply step_run_inv in H as (? & ? & ? & _ & _ & _ & ->).
    simpl. apply length_insert.
  - intros H. apply step_destroy_inv in H as (? & ? & ? & _ & _ & ->). done.
  - intros H. apply step_join_inv in H as (? & ? & ? & _ & _ & _ & _ & ->). done.
Qed.

Lemma run_workers_length s sched s' :
  run s sched = Some s' → length (workers s') = length (workers s).
Proof.
  revert s. induction sched as [|l sched IH]; simpl; intros s H.
  - by simplify_eq.
  - destruct (step s l) as [s1|] eqn:Hs; simpl in H; [|done].
    rewrite (IH _ H). by eapply step_workers_length.
Qed.

(** Without a failed task-copy allocation a worker exits on an empty queue
    only, and the queue stays empty from then on. *)
Lemma step_drained s l s' :
  sys_inv s → drained_inv s → no_dequeue_failure l = true →
  step s l = Some s' → drained_inv s'.
Proof.
  intros [_ Hinv] Hdr Hok Hstep. unfold drained_inv in *.
  destruct (pools (mem s) !! handle s) as [p|] eqn:Hp;
    [|by rewrite step_freed in Hstep].
  destruct Hinv as (ns & Hrep & _ & _ & _ & _ & _ & _ & Hpos & Hexit).
  destruct l as [f a name nn|i ok|i| |].
  - apply step_submit_inv in Hstep as (p0 & m' & r & Hm & Hp0 & Ha & ->).
    same_pool Hp Hp0.
    destruct (add_task_live _ _ _ _ _ _ _ _ _ _ Hp Hrep Hm Ha)
      as [(-> & -> & Hwhy)|(-> & fp & n & h' & p' & -> & -> & Hs0 & -> & Hrep' & Htc' & Hsd' & Hnm')].
    + simpl. by rewrite Hp.
    + simpl. rewrite lookup_insert_eq. intros Hin. by destruct (Hexit Hs0).
  - apply step_work_inv in Hstep as (p0 & h' & p' & pc & Hw & Hp0 & Hd & ->).
    same_pool Hp Hp0. simpl. rewrite lookup_insert_eq.
    destruct (dispatch_live _ _ _ _ _ _ _ _ Hrep Hd)
      as [(-> & -> & -> & Hs0 & _)|[(-> & -> & -> & Hs1 & Hwhy)|
          (l & t & ns' & slot & -> & -> & -> & -> & Hrep' & Hsd' & Htc' & Hslot & Hnm')]].
    + by rewrite list_insert_id.
    + intros _. destruct Hwhy as [-> | ->]; [|done].
      by apply (queue_rep_size_zero _ _ _ Hrep).
    + intros Hin. apply elem_of_insert_inv in Hin as [?|Hin]; [done|].
      specialize (Hdr Hin). by apply (queue_rep_size_zero _ _ _ Hrep) in Hdr.
  - apply step_run_inv in Hstep as (t & p0 & p' & Hw & Hp0 & Hf & ->).
    same_pool Hp Hp0.
    apply finish_live in Hf as (slot & Hslot & ->).
    simpl. rewrite lookup_insert_eq. simpl. intros Hin.
    apply elem_of_insert_inv in Hin as [?|Hin]; [done|]. auto.
  - apply step_destroy_inv in Hstep as (p0 & m' & r & Hp0 & Hd & ->).
    same_pool Hp Hp0.
    destruct (destroy_begin_live _ _ _ _ _ Hp Hd) as [(Hs & -> & ->)|(Hs & -> & ->)].
    + simpl. by rewrite Hp.
    + simpl. by rewrite lookup_insert_eq.
  - apply step_join_inv in Hstep as (p0 & m' & r & Hp0 & Hs & Hall & Hd & ->).
    same_pool Hp Hp0.
    destruct (destroy_finish_live _ _ _ _ _ _ Hp Hrep Hd) as (-> & ->).
    simpl. rewrite lookup_delete_eq.
    rewrite (queued_tasks_rep _ _ _ Hrep).
    specialize (Hdr (exited_elem _ Hall Hpos)).
    apply (queue_rep_size_zero _ _ _ Hrep) in Hdr. by subst.
Qed.

Lemma run_drained s sched s' :
  sys_inv s → drained_inv s → forallb no_dequeue_failure sched = true →
  run s sched = Some s' → drained_inv s'.
Proof.
  revert s. induction sched as [|l sched IH]; simpl; intros s Hinv Hdr Hok H.
  - by simplify_eq.
  - apply andb_true_iff in Hok as [Hl Hok].
    destruct (step s l) as [s1|] eqn:Hs; simpl in H; [|done].
    eapply IH; [| |done|done]; [by eapply step_inv|by eapply step_drained].
Qed.

(** After the shutdown flag is set nothing more is submitted. *)
Lemma step_closed s l s' :
  sys_inv s → closed s → step s l = Some s' →
  closed s' ∧ submitted s' = submitted s.
Proof.
  intros [_ Hinv] Hcl Hstep. unfold closed in *.
  destruct (pools (mem s) !! handle s) as [p|] eqn:Hp;
    [|by rewrite step_freed in Hstep].
  destruct Hinv as (ns & Hrep & _).
  destruct l as [f a name nn|i ok|i| |].
  - apply step_submit_inv in Hstep as (p0 & m' & r & Hm & Hp0 & Ha & ->).
    same_pool Hp Hp0.
    destruct (add_task_live _ _ _ _ _ _ _ _ _ _ Hp Hrep Hm Ha)
      as [(-> & -> & Hwhy)|(-> & fp & n & h' & p' & -> & -> & Hs0 & _)]; [|done].
    simpl. by rewrite Hp.
  - apply step_work_inv in Hstep as (p0 & h' & p' & pc & Hw & Hp0 & Hd & ->).
    same_pool Hp Hp0. simpl. rewrite lookup_insert_eq.
    split; [|done].
    destruct (dispatch_live _ _ _ _ _ _ _ _ Hrep Hd)
      as [(-> & -> & -> & Hs0 & _)|[(-> & -> & -> & Hs1 & Hwhy)|
          (l & t & ns' & slot & -> & -> & -> & -> & Hrep' & Hsd' & _)]];
      [done|done|by rewrite Hsd'].
  - apply step_run_inv in Hstep as (t & p0 & p' & Hw & Hp0 & Hf & ->).
    same_pool Hp Hp0.
    apply finish_live in Hf as (slot & Hslot & ->).
    simpl. by rewrite lookup_insert_eq.
  - apply step_destroy_inv in Hstep as (p0 & m' & r & Hp0 & Hd & ->).
    same_pool Hp Hp0.
    destruct (destroy_begin_live _ _ _ _ _ Hp Hd) as [(Hs & -> & ->)|(Hs & -> & ->)];
      [|done].
    simpl. by rewrite Hp.
  - apply step_join_inv in Hstep as (p0 & m' & r & Hp0 & Hs & Hall & Hd & ->).
    same_pool Hp Hp0.
    destruct (destroy_finish_live _ _ _ _ _ _ Hp Hrep Hd) as (-> & ->).
    simpl. by rewrite lookup_delete_eq.
Qed.

Lemma run_closed s sched s' :
  sys_inv s → closed s → run s sched = Some s' → submitted s' = submitted s.
Proof.
  revert s. induction sched as [|l sched IH]; simpl; intros s Hinv Hcl H.
  - by simplify_eq.
  - destruct (step s l) as [s1|] eqn:Hs; simpl in H; [|done].
    destruct (step_closed _ _ _ Hinv Hcl Hs) as [Hcl1 <-].
    apply IH; [by eapply step_inv|done|done].
Qed.

Lemma step_destroy_closed s s' :
  sys_inv s → step s LDestroy = Some s' → closed s' ∧ submitted s' = submitted s.
Proof.
  intros [_ Hinv] Hstep. unfold closed.
  apply step_destroy_inv in Hstep as (p & m' & r & Hp & Hd & ->).
  destruct (destroy_begin_live _ _ _ _ _ Hp Hd) as [(Hs & -> & ->)|(Hs & -> & ->)]; simpl.
  - by rewrite Hp.
  - by rewrite lookup_insert_eq.
Qed.

Lemma step_invoked s l s' :
  step s l = Some s' → ∃ later, invoked s' = invoked s ++ later.
Proof.
  destruct l.
  - intros H. apply step_submit_inv in H as (? & ? & ? & _ & _ & _ & ->).
    exists []. simpl. by rewrite app_nil_r.
  - intros H. apply step_work_inv in H as (? & ? & ? & ? & _ & _ & _ & ->).
    exists []. simpl. by rewrite app_nil_r.
  - intros H. apply step_run_inv in H as (t & ? & ? & _ & _ & _ & ->). by exists [t].
  - intros H. apply step_destroy_inv in H as (? & ? & ? & _ & _ & ->).
    exists []. simpl. by rewrite app_nil_r.
  - intros H. apply step_join_inv in H as (? & ? & ? & _ & _ & _ & _ & ->).
    exists []. simpl. by rewrite app_nil_r.
Qed.

Lemma run_invoked s sched s' :
  run s sched = Some s' → ∃ later, invoked s' = invoked s ++ later.
Proof.
  revert s. induction sched as [|l sched IH]; simpl; intros s H.
  - simplify_eq. exists []. by rewrite app_nil_r.
  - destruct (step s l) as [s1|] eqn:Hs; simpl in H; [|done].
    destruct (step_invoked _ _ _ Hs) as [l1 H1]. destruct (IH _ H) as [l2 H2].
    exists (l1 ++ l2). by rewrite H2, H1, app_assoc.
Qed.

Lemma boot_run_inv k env sched s :
  boot_run k env sched = Some s →
  sys_inv s ∧ length (workers s) = Z.to_nat k ∧ 0 < k ∧
  (forallb no_dequeue_failure sched = true → drained_inv s).
Proof.
  unfold boot_run. destruct (boot k env) as [s0|] eqn:Hb; simpl; [|done].
  intros Hrun. destruct (boot_inv _ _ _ Hb) as (Hinv & Hdr & Hlen & Hk).
  split; [by eapply run_inv|]. split; [by rewrite (run_workers_length _ _ _ Hrun)|].
  split; [done|]. intros Hok. by eapply run_drained.
Qed.

(** ** The status slots *)

Lemma snprintf_s_length slot src :
  length slot = MAX_TASK_NAME_LEN →
  length (snprintf_s slot MAX_TASK_NAME_LEN src) = MAX_TASK_NAME_LEN.
Proof.
  unfold snprintf_s, MAX_TASK_NAME_LEN. intros Hl.
  rewrite length_app. simpl. rewrite length_drop, length_take, Hl. lia.
Qed.

Lemma snprintf_s_c_str slot src :
  c_str (snprintf_s slot MAX_TASK_NAME_LEN src)
  = take (MAX_TASK_NAME_LEN - 1) (c_str src).
Proof. unfold snprintf_s, MAX_TASK_NAME_LEN. apply c_str_app_nul, take_c_str_no_nul. Qed.

Lemma idle_slot_length : length idle_slot = MAX_TASK_NAME_LEN.
Proof. reflexivity. Qed.

Lemma copy_name_idle slot :
  length slot = MAX_TASK_NAME_LEN → copy_name slot (lit "[idle]") = idle_slot.
Proof. intros Hl. by apply strncpy_terminated_any. Qed.

Lemma step_slots s l s' :
  sys_inv s → slots_inv s → step s l = Some s' → slots_inv s'.
Proof.
  intros [_ Hinv] Hsl Hstep. unfold slots_inv in *.
  destruct (pools (mem s) !! handle s) as [p|] eqn:Hp;
    [|by rewrite step_freed in Hstep].
  destruct Hinv as (ns & Hrep & _).
  destruct l as [f a name nn|i ok|i| |].
  - apply step_submit_inv in Hstep as (p0 & m' & r & Hm & Hp0 & Ha & ->).
    same_pool Hp Hp0.
    destruct (add_task_live _ _ _ _ _ _ _ _ _ _ Hp Hrep Hm Ha)
      as [(-> & -> & Hwhy)|(-> & fp & n & h' & p' & -> & -> & Hs0 & -> & _ & _ & _ & Hnm')].
    + simpl. by rewrite Hp.
    + simpl. rewrite lookup_insert_eq. by rewrite Hnm'.
  - apply step_work_inv in Hstep as (p0 & h' & p' & pc & Hw & Hp0 & Hd & ->).
    same_pool Hp Hp0. simpl. rewrite lookup_insert_eq.
    destruct (Forall2_lookup_l _ _ _ _ _ Hsl Hw) as (slot0 & Hslot0 & Hlen0 & Hidle).
    destruct (dispatch_live _ _ _ _ _ _ _ _ Hrep Hd)
      as [(-> & -> & -> & _)|[(-> & -> & -> & _)|
          (l & t & ns' & slot & -> & -> & -> & -> & _ & _ & _ & Hslot & Hnm')]].
    + by rewrite list_insert_id.
    + rewrite <- (list_insert_id (running_task_names p) i slot0) by done.
      by apply Forall2_insert.
    + rewrite Hnm'. apply Forall2_insert; [done|].
      rewrite Hslot0 in Hslot. injection Hslot as <-.
      split; [by apply snprintf_s_length|apply snprintf_s_c_str].
  - apply step_run_inv in Hstep as (t & p0 & p' & Hw & Hp0 & Hf & ->).
    same_pool Hp Hp0.
    apply finish_live in Hf as (slot & Hslot & ->).
    simpl. rewrite lookup_insert_eq. simpl.
    destruct (Forall2_lookup_l _ _ _ _ _ Hsl Hw) as (slot0 & Hslot0 & Hlen0 & _).
    rewrite Hslot0 in Hslot. injection Hslot as <-.
    apply Forall2_insert; [done|]. split; [|by apply copy_name_idle].
    by apply copy_name_length.
  - apply step_destroy_inv in Hstep as (p0 & m' & r & Hp0 & Hd & ->).
    same_pool Hp Hp0.
    destruct (destroy_begin_live _ _ _ _ _ Hp Hd) as [(Hs & -> & ->)|(Hs & -> & ->)].
    + simpl. by rewrite Hp.
    + simpl. by rewrite lookup_insert_eq.
  - apply step_join_inv in Hstep as (p0 & m' & r & Hp0 & Hs & Hall & Hd & ->).
    same_pool Hp Hp0.
    destruct (destroy_finish_live _ _ _ _ _ _ Hp Hrep Hd) as (-> & ->).
    simpl. by rewrite lookup_delete_eq.
Qed.

Lemma run_slots s sched s' :
  sys_inv s → slots_inv s → run s sched = Some s' → slots_inv s'.
Proof.
  revert s. induction sched as [|l sched IH]; simpl; intros s Hinv Hsl H.
  - by simplify_eq.
  - destruct (step s l) as [s1|] eqn:Hs; simpl in H; [|done].
    eapply IH; [| |done]; [by eapply step_inv|by eapply step_slots].
Qed.

Lemma boot_run_slots k env sched s : boot_run k env sched = Some s → slots_inv s.
Proof.
  unfold boot_run. destruct (boot k env) as [s0|] eqn:Hb; simpl; [|done].
  intros Hrun. destruct (boot_inv _ _ _ Hb) as (Hinv & _).
  eapply run_slots; [done| |done].
  apply boot_some in Hb as (a & Hk & ->). unfold slots_inv. simpl.
  rewrite lookup_singleton_eq. simpl. clear.
  induction (Z.to_nat k) as [|n IH]; simpl; constructor; [|done].
  split; reflexivity.
Qed.

(** While nothing has been submitted every slot reads as the sentinel. *)
Lemma slots_idle_before_submit k env sched s p :
  boot_run k env sched = Some s → pools (mem s) !! handle s = Some p →
  submitted s = [] →
  running_task_names p = replicate (Z.to_nat k) idle_slot ∧
  thread_count p = k.
Proof.
  intros Hb Hp Hsub.
  pose proof (boot_run_slots _ _ _ _ Hb) as Hsl.
  destruct (boot_run_inv _ _ _ _ Hb) as ([_ Hinv] & Hlen & Hk & _).
  unfold slots_inv in Hsl. rewrite Hp in *.
  destruct Hinv as (ns & _ & Hs & Hperm & _ & _ & Hnl & Htc & _).
  rewrite Hsub in Hs. symmetry in Hs. apply app_eq_nil in Hs as [Hdq _].
  rewrite Hdq in Hperm. symmetry in Hperm. apply Permutation_nil_r in Hperm.
  apply app_eq_nil in Hperm as [_ Hrun].
  split; [|lia]. rewrite <- Hlen. clear -Hsl Hrun.
  induction Hsl as [|w slot ws slots [_ Hw] _ IH]; [done|].
  simpl. destruct w; simpl in *; try done; by rewrite Hw, IH.
Qed.

(** ** Shutdown: queued tasks are run, not dropped *)


Lemma sys_inv_freed s :
  sys_inv s → pools (mem s) !! handle s = None →
  submitted s ≡ₚ invoked s ++ discarded s.
Proof.
  intros [_ Hinv] Hp. rewrite Hp in Hinv. destruct Hinv as (Hsub & Hperm & _).
  rewrite Hsub. by apply Permutation_app_tail.
Qed.

(** From the moment Destroy sets the flag to the end of Destroy: nothing is
    submitted any more, and what was in flight or queued is exactly what is
    invoked from then on together with what the drain frees. *)
Lemma shutdown_to_freed k env sched1 s1 p1 sched2 s2 :
  boot_run k env sched1 = Some s1 →
  pools (mem s1) !! handle s1 = Some p1 →
  shutdown p1 = 0 →
  run s1 (LDestroy :: sched2) = Some s2 →
  pools (mem s2) !! handle s2 = None →
  ∃ later,
    invoked s2 = invoked s1 ++ later ∧
    submitted s2 = submitted s1 ∧
    submitted s2 ≡ₚ invoked s2 ++ discarded s2 ∧
    running_tasks (workers s1) ++ queued_tasks (nodes (mem s1)) p1
      ≡ₚ later ++ discarded s2 ∧
    (forallb no_dequeue_failure sched2 = true → discarded s2 = []).
Proof.
  intros Hb Hp1 Hsd Hrun Hp2.
  destruct (boot_run_inv _ _ _ _ Hb) as (Hinv1 & _ & _ & _).
  pose proof (run_inv _ _ _ Hinv1 Hrun) as Hinv2.
  destruct (run_invoked _ _ _ Hrun) as [later Hlater].
  pose proof (sys_inv_freed _ Hinv2 Hp2) as Hperm2.
  apply run_cons in Hrun as (s1' & Hd & Hrun).
  destruct (step_destroy_closed _ _ Hinv1 Hd) as [Hcl Hsub1].
  pose proof (step_inv _ _ _ Hinv1 Hd) as Hinv1'.
  pose proof (run_closed _ _ _ Hinv1' Hcl Hrun) as Hsub2.
  exists later. split; [done|]. split; [congruence|]. split; [done|]. split.
  { destruct Hinv1 as [_ Hi]. rewrite Hp1 in Hi.
    destruct Hi as (ns & Hrep & Hsub & Hperm & _).
    rewrite (queued_tasks_rep _ _ _ Hrep).
    apply (Permutation_app_inv_l (invoked s1)).
    rewrite !app_assoc, <- Hlater, <- Hperm2, Hsub2, Hsub1, Hsub.
    by rewrite Hperm. }
  intros Hok.
  assert (Hdr1 : drained_inv s1).
  { unfold drained_inv. rewrite Hp1. intros Hin.
    destruct Hinv1 as [_ Hi]. rewrite Hp1 in Hi.
    destruct Hi as (ns & _ & _ & _ & _ & _ & _ & _ & _ & Hexit). by destruct (Hexit Hsd). }
  assert (Hdr2 : drained_inv s2).
  { exact (run_drained s1' sched2 s2 Hinv1'
             (step_drained s1 LDestroy s1' Hinv1 Hdr1 eq_refl Hd) Hok Hrun). }
  unfold drained_inv in Hdr2. by rewrite Hp2 in Hdr2.
Qed.

(** Claim C1, as the code has it: a task that is queued when Destroy sets
    the shutdown flag is not dropped at that moment. The tasks in flight or
    queued at that moment are exactly the tasks invoked from then on together
    with the tasks freed by the drain at the end of Destroy; when no task-copy
    allocation of a worker fails after the flag is set, the drain frees
    nothing and every task that was queued is invoked. *)
Theorem queued_at_shutdown_invoked_or_drained
    k env sched1 s1 p1 sched2 s2 :
  boot_run k env sched1 = Some s1 →
  pools (mem s1) !! handle s1 = Some p1 →
  shutdown p1 = 0 →
  run s1 (LDestroy :: sched2) = Some s2 →
  pools (mem s2) !! handle s2 = None →
  ∃ later,
    invoked s2 = invoked s1 ++ later ∧
    running_tasks (workers s1) ++ queued_tasks (nodes (mem s1)) p1
      ≡ₚ later ++ discarded s2 ∧
    (forallb no_dequeue_failure sched2 = true →
     discarded s2 = [] ∧
     ∀ t, t ∈ queued_tasks (nodes (mem s1)) p1 → t ∈ later).
Proof.
  intros Hb Hp1 Hsd Hrun Hp2.
  destruct (shutdown_to_freed _ _ _ _ _ _ _ Hb Hp1 Hsd Hrun Hp2)
    as (later & Hlater & _ & _ & Hperm & Hdr).
  exists later. split; [done|]. split; [done|].
  intros Hok. specialize (Hdr Hok). split; [done|]. intros t Ht.
  rewrite Hdr, app_nil_r in Hperm. rewrite <- Hperm.
  apply elem_of_app. by right.
Qed.

Lemma queued_at_shutdown_witness :
  ∃ later,
    invoked sys_T1_done = invoked sys_T1_queued ++ later ∧
    running_tasks (workers sys_T1_queued) ++
      queued_tasks (nodes (mem sys_T1_queued)) (pool1 (Some 1%positive) (Some 1%positive) 1 0)
      ≡ₚ later ++ discarded sys_T1_done ∧
    (forallb no_dequeue_failure drain_after_flag = true →
     discarded sys_T1_done = [] ∧
     ∀ t, t ∈ queued_tasks (nodes (mem sys_T1_queued))
                (pool1 (Some 1%positive) (Some 1%positive) 1 0) → t ∈ later).
Proof.
  apply (queued_at_shutdown_invoked_or_drained 1 (env_ok 1) [submit_T1]
           sys_T1_queued (pool1 (Some 1%positive) (Some 1%positive) 1 0)
           drain_after_flag sys_T1_done);
    vm_compute; reflexivity.
Defined.

(** The claim of C1 as it is written fails: after Create(1) and a Submit,
    [task_T1] is queued when Destroy sets the flag, and the worker still takes
    it and runs it before it exits. *)
Lemma queued_task_runs_after_shutdown :
  ¬ (∀ k env sched1 s1 p1 sched2 s2 t,
       boot_run k env sched1 = Some s1 →
       pools (mem s1) !! handle s1 = Some p1 →
       shutdown p1 = 0 →
       t ∈ queued_tasks (nodes (mem s1)) p1 →
       run s1 (LDestroy :: sched2) = Some s2 →
       t ∉ invoked s2).
Proof.
  intros H.
  apply (H 1 (env_ok 1) [submit_T1] sys_T1_queued
           (pool1 (Some 1%positive) (Some 1%positive) 1 0)
           drain_after_flag sys_T1_done task_T1);
    try (vm_compute; reflexivity).
  - replace (queued_tasks _ _) with [task_T1] by (vm_compute; reflexivity).
    apply list_elem_of_here.
  - apply list_elem_of_here.
Qed.

(** ** Conservation, order and accounting *)

(** Claim C2, as the code has it: after the Submits and one complete
    Destroy, the submitted tasks are exactly the invoked tasks together with
    the tasks freed by the drain, each once; when no task-copy allocation of a
    worker fails after Destroy set the flag, nothing is freed by the drain and
    the number of invoked actions equals the number of successful Submits. *)
Theorem conservation_up_to_drain k env sched1 s1 p1 sched2 s2 :
  boot_run k env sched1 = Some s1 →
  pools (mem s1) !! handle s1 = Some p1 →
  shutdown p1 = 0 →
  run s1 (LDestroy :: sched2) = Some s2 →
  pools (mem s2) !! handle s2 = None →
  submitted s2 ≡ₚ invoked s2 ++ discarded s2 ∧
  (length (invoked s2) + length (discarded s2) = length (submitted s2))%nat ∧
  (forallb no_dequeue_failure sched2 = true →
   submitted s2 ≡ₚ invoked s2 ∧
   length (invoked s2) = length (submitted s2)).
Proof.
  intros Hb Hp1 Hsd Hrun Hp2.
  destruct (shutdown_to_freed _ _ _ _ _ _ _ Hb Hp1 Hsd Hrun Hp2)
    as (later & _ & _ & Hperm & _ & Hdr).
  split; [done|]. split.
  { by rewrite Hperm, length_app. }
  intros Hok. rewrite (Hdr Hok), app_nil_r in Hperm. split; [done|]. by rewrite Hperm.
Qed.

Lemma conservation_witness :
  submitted sys_T1_done ≡ₚ invoked sys_T1_done ++ discarded sys_T1_done ∧
  (length (invoked sys_T1_done) + length (discarded sys_T1_done)
   = length (submitted sys_T1_done))%nat ∧
  (forallb no_dequeue_failure drain_after_flag = true →
   submitted sys_T1_done ≡ₚ invoked sys_T1_done ∧
   length (invoked sys_T1_done) = length (submitted sys_T1_done)).
Proof.
  apply (conservation_up_to_drain 1 (env_ok 1) [submit_T1] sys_T1_queued
           (pool1 (Some 1%positive) (Some 1%positive) 1 0)
           drain_after_flag sys_T1_done); vm_compute; reflexivity.
Defined.

(** The claim of C2 as it is written fails: after Create(1), a Submit and
    Destroy, the task-copy allocation of the only worker fails; the worker
    exits, the drain frees the queued task, and no action was invoked for
    one successful Submit. *)
Lemma submitted_task_lost_on_failed_copy :
  ¬ (∀ k env sched1 s1 p1 sched2 s2,
       boot_run k env sched1 = Some s1 →
       pools (mem s1) !! handle s1 = Some p1 →
       shutdown p1 = 0 →
       run s1 (LDestroy :: sched2) = Some s2 →
       pools (mem s2) !! handle s2 = None →
       length (invoked s2) = length (submitted s2)).
Proof.
  intros H.
  assert (Hlen : length (invoked (Sys (Mem ∅ ∅) 1%positive [WExit] [task_T1] [] []
                                     [task_T1] 1))
                 = length (submitted (Sys (Mem ∅ ∅) 1%positive [WExit] [task_T1] [] []
                                          [task_T1] 1))).
  { apply (H 1 (env_ok 1) [submit_T1] sys_T1_queued
             (pool1 (Some 1%positive) (Some 1%positive) 1 0)
             [LWork 0 false; LJoin]); vm_compute; reflexivity. }
  discriminate Hlen.
Qed.



(** Claim C7, as the code has it: while the pool lives, the recorded queue
    length is the number of successful enqueues (successful Submits) minus the
    number of successful dequeues; a failed enqueue is a call that adds
    nothing. The drain of Destroy sets the recorded length to 0 whatever is
    queued, which agrees with the equation when the queue is empty, as it is
    whenever all workers have exited and no task-copy allocation failed. *)
Theorem queue_length_accounting k env sched s p :
  boot_run k env sched = Some s →
  pools (mem s) !! handle s = Some p →
  task_queue_size p
    = Z.of_nat (length (submitted s)) - Z.of_nat (length (dequeued s)) ∧
  (length (submitted s) ≤ enqueue_calls s)%nat ∧
  (∃ h' p', task_queue_destroy_internal (nodes (mem s)) p = Some (h', p') ∧
            task_queue_size p' = 0) ∧
  (forallb no_dequeue_failure sched = true →
   forallb exited (workers s) = true → task_queue_size p = 0).
Proof.
  intros Hb Hp. destruct (boot_run_inv _ _ _ _ Hb) as ([Hcalls Hinv] & _ & _ & Hdr).
  rewrite Hp in Hinv. destruct Hinv as (ns & Hrep & Hsub & Hinv).
  split; [|split; [done|split]].
  - destruct Hrep as (_ & _ & _ & ->). rewrite Hsub, length_app, length_fmap. lia.
  - destruct (drain_rep _ _ _ Hrep) as (p' & Hd & Hrep' & _).
    eexists _, p'. split; [done|]. by destruct Hrep' as (_ & _ & _ & ->).
  - intros Hok Hall. specialize (Hdr Hok). unfold drained_inv in Hdr.
    rewrite Hp in Hdr. apply Hdr, exited_elem; [done|].
    by destruct Hinv as (_ & _ & _ & _ & _ & Hpos & _).
Qed.

Lemma queue_length_accounting_witness :
  task_queue_size (pool1 (Some 1%positive) (Some 1%positive) 1 0)
    = Z.of_nat (length (submitted sys_T1_queued))
      - Z.of_nat (length (dequeued sys_T1_queued)) ∧
  (length (submitted sys_T1_queued) ≤ enqueue_calls sys_T1_queued)%nat ∧
  (∃ h' p',
     task_queue_destroy_internal (nodes (mem sys_T1_queued))
       (pool1 (Some 1%positive) (Some 1%positive) 1 0) = Some (h', p') ∧
     task_queue_size p' = 0) ∧
  (forallb no_dequeue_failure [submit_T1] = true →
   forallb exited (workers sys_T1_queued) = true →
   task_queue_size (pool1 (Some 1%positive) (Some 1%positive) 1 0) = 0).
Proof.
  apply (queue_length_accounting 1 (env_ok 1) [submit_T1] sys_T1_queued);
    vm_compute; reflexivity.
Defined.

(** The claim of C7 as it is written fails twice. A Submit whose node
    allocation fails is an enqueue call that adds nothing; and after a Submit,
    Destroy and a failed task-copy allocation, the drain sets the length to 0
    although one task was enqueued and none dequeued. *)
Lemma queue_length_equation_broken :
  ¬ (∀ k env sched s p,
       boot_run k env sched = Some s →
       pools (mem s) !! handle s = Some p →
       task_queue_size p
         = Z.of_nat (enqueue_calls s) - Z.of_nat (length (dequeued s))) ∧
  ¬ (∀ k env sched s p h' p',
       boot_run k env sched = Some s →
       pools (mem s) !! handle s = Some p →
       task_queue_destroy_internal (nodes (mem s)) p = Some (h', p') →
       task_queue_size p'
         = Z.of_nat (length (submitted s)) - Z.of_nat (length (dequeued s))).
Proof.
  split; intros H.
  - assert (Heq : task_queue_size (pool1 None None 0 0) = 1 - 0).
    { apply (H 1 (env_ok 1) [LSubmit (Some 7%positive) None None None]
               (Sys mem_created 1%positive [WLoop] [] [] [] [] 1));
        vm_compute; reflexivity. }
    discriminate Heq.
  - assert (Heq : task_queue_size (pool1 None None 0 1) = 1 - 0).
    { apply (H 1 (env_ok 1) [submit_T1; LDestroy; LWork 0 false] sys_T1_stranded
               (pool1 (Some 1%positive) (Some 1%positive) 1 1) ∅);
        vm_compute; reflexivity. }
    discriminate Heq.
Qed.

(** ** Submit and the queue under allocation failure *)

(** Claim C4: on a handle that is NULL or points to a live pool, Submit
    returns 0 or -1, and -1 exactly when the handle is NULL, the function
    pointer is NULL, the shutdown flag is set, or the node allocation fails;
    when it returns -1 the memory, and so the queue, is as before. *)
Theorem add_task_failure_iff m pool fn argument name new_node :
  handle_ok m pool →
  malloc_result_ok (nodes m) new_node = true →
  ∃ m' r,
    thread_pool_add_task m pool fn argument name new_node = Some (m', r) ∧
    (r = 0 ∨ r = -1) ∧
    (r = -1 ↔
       pool = None ∨ fn = None ∨
       (∃ a p, pool = Some a ∧ pools m !! a = Some p ∧ shutdown p ≠ 0) ∨
       new_node = None) ∧
    (r = -1 → m' = m).
Proof.
  intros Hh Hm. destruct pool as [a|].
  - destruct Hh as (p & Hp & [ns Hrep] & Hlt).
    destruct fn as [f|].
    + destruct (decide (shutdown p ≠ 0)) as [Hs|Hs].
      * exists m, (-1). unfold thread_pool_add_task. rewrite Hp. simpl.
        rewrite decide_True by done. repeat split; eauto 10.
      * destruct new_node as [n|].
        -- apply bool_decide_eq_true in Hm.
           destruct (enqueue_rep _ _ _ (Task (Some f) argument (prepare_task_name name)) n
                       Hrep Hm Hlt) as (h' & p' & He & _).
           exists (Mem h' (<[a := p']> (pools m))), 0.
           unfold thread_pool_add_task. rewrite Hp. simpl.
           rewrite decide_False by done. rewrite He. simpl.
           split; [done|]. split; [by left|]. split; [|done].
           split; [done|]. intros [?|[?|[(a' & p0 & ? & Hp0 & ?)|?]]]; try done.
           simplify_eq. contradiction.
        -- exists m, (-1). unfold thread_pool_add_task. rewrite Hp. simpl.
           rewrite decide_False by done. unfold task_enqueue_internal. simpl.
           split.
           { do 2 f_equal. destruct m as [nd pl]. simpl in *. f_equal. by apply insert_id. }
           repeat split; eauto 10.
    + exists m, (-1). unfold thread_pool_add_task. repeat split; eauto 10.
  - exists m, (-1). unfold thread_pool_add_task. repeat split; eauto 10.
Qed.

Lemma add_task_failure_iff_witness :
  ∃ m' r,
    thread_pool_add_task mem_created (Some 1%positive) (Some 7%positive) None
      (Some (lit "T1")) (Some 1%positive) = Some (m', r) ∧
    (r = 0 ∨ r = -1) ∧
    (r = -1 ↔
       Some 1%positive = None ∨ Some 7%positive = None ∨
       (∃ a p, Some 1%positive = Some a ∧ pools mem_created !! a = Some p ∧
               shutdown p ≠ 0) ∨
       Some 1%positive = None) ∧
    (r = -1 → m' = mem_created).
Proof.
  apply (add_task_failure_iff mem_created (Some 1%positive) (Some 7%positive) None
           (Some (lit "T1")) (Some 1%positive)).
  - exists (pool1 None None 0 0). split; [reflexivity|]. split.
    + exists []. repeat split; simpl; try reflexivity. apply NoDup_nil_2.
    + vm_compute. reflexivity.
  - vm_compute. reflexivity.
Defined.

(** Claim C6: Enqueue with a failed node allocation returns -1 and leaves
    heap and pool as they were; Dequeue with a failed allocation of the copy
    returns NULL and leaves heap and pool as they were, the head node
    included; Dequeue on an empty queue returns NULL and changes nothing. *)
Theorem allocation_failure_leaves_queue h pool t :
  task_enqueue_internal h pool t None = Some (h, pool, -1) ∧
  task_dequeue_internal h pool false = Some (h, pool, None) ∧
  (head pool = None →
   ∀ alloc_ok, task_dequeue_internal h pool alloc_ok = Some (h, pool, None)).
Proof.
  split; [done|]. split.
  - unfold task_dequeue_internal. by destruct (head pool).
  - intros Hh ok. unfold task_dequeue_internal. by rewrite Hh.
Qed.

Lemma allocation_failure_leaves_queue_witness :
  task_enqueue_internal ∅ (pool1 None None 0 0) task_T1 None
    = Some (∅, pool1 None None 0 0, -1) ∧
  task_dequeue_internal ∅ (pool1 None None 0 0) false
    = Some (∅, pool1 None None 0 0, None) ∧
  ∀ alloc_ok,
    task_dequeue_internal ∅ (pool1 None None 0 0) alloc_ok
      = Some (∅, pool1 None None 0 0, None).
Proof.
  destruct (allocation_failure_leaves_queue ∅ (pool1 None None 0 0) task_T1)
    as (H1 & H2 & H3).
  split; [exact H1|]. split; [exact H2|]. apply H3. reflexivity.
Defined.

(** Claim C9: the task that a successful Submit puts in its new node holds
    the name ["unnamed_task"] when the name pointer is NULL, and otherwise
    the first MAX_TASK_NAME_LEN - 1 characters of the given name, the empty
    name included, in a buffer of MAX_TASK_NAME_LEN bytes whose last byte
    is NUL. *)
Theorem add_task_stores_name m a p f argument name n :
  pools m !! a = Some p → shutdown p = 0 → queue_wf (nodes m) p →
  task_queue_size p < INT_MAX → nodes m !! n = None →
  ∃ m' t,
    thread_pool_add_task m (Some a) (Some f) argument name (Some n) = Some (m', 0) ∧
    nodes m' !! n = Some (Node t None) ∧
    function t = Some f ∧ arg t = argument ∧
    length (task_name t) = MAX_TASK_NAME_LEN ∧
    task_name t !! (MAX_TASK_NAME_LEN - 1)%nat = Some NUL ∧
    c_str (task_name t) =
      match name with
      | None => lit "unnamed_task"
      | Some s => take (MAX_TASK_NAME_LEN - 1) (c_str s)
      end.
Proof.
  intros Hp Hs [ns Hrep] Hlt Hn.
  destruct (enqueue_rep _ _ _ (Task (Some f) argument (prepare_task_name name)) n
              Hrep Hn Hlt) as (h' & p' & He & _ & Hnode & _).
  exists (Mem h' (<[a := p']> (pools m))), (Task (Some f) argument (prepare_task_name name)).
  unfold thread_pool_add_task. rewrite Hp. simpl.
  rewrite decide_False by lia. rewrite He. simpl.
  split; [done|]. split; [done|]. split; [done|]. split; [done|].
  assert (Hu : length uninit_buf = MAX_TASK_NAME_LEN) by reflexivity.
  unfold prepare_task_name. destruct name as [s|].
  - split; [by apply copy_name_length|]. split; [by apply copy_name_terminated|].
    by apply copy_name_c_str.
  - split; [by apply copy_name_length|]. split; [by apply copy_name_terminated|].
    reflexivity.
Qed.

Lemma add_task_stores_name_witness :
  ∃ m' t,
    thread_pool_add_task mem_created (Some 1%positive) (Some 7%positive) None
      (Some []) (Some 1%positive) = Some (m', 0) ∧
    nodes m' !! 1%positive = Some (Node t None) ∧
    function t = Some 7%positive ∧ arg t = None ∧
    length (task_name t) = MAX_TASK_NAME_LEN ∧
    task_name t !! (MAX_TASK_NAME_LEN - 1)%nat = Some NUL ∧
    c_str (task_name t) = take (MAX_TASK_NAME_LEN - 1) (c_str []).
Proof.
  apply (add_task_stores_name mem_created 1%positive (pool1 None None 0 0)
           7%positive None (Some []) 1%positive).
  - reflexivity.
  - reflexivity.
  - exists []. repeat split; simpl; try reflexivity. apply NoDup_nil_2.
  - vm_compute. reflexivity.
  - reflexivity.
Defined.

(** ** Destroy, status query, and the queue fields *)

(** Destroy on a live pool: failure for NULL only, and a no-op returning 0
    once the flag is set. *)
Lemma destroy_begin_result m pool :
  (∀ a, pool = Some a → is_Some (pools m !! a)) →
  ∃ m' r, thread_pool_destroy_begin m pool = Some (m', r) ∧
    (r = DestroyReturned (-1) ↔ pool = None) ∧
    (∀ a p, pool = Some a → pools m !! a = Some p → shutdown p ≠ 0 →
            r = DestroyReturned 0 ∧ m' = m).
Proof.
  intros Hlive. destruct pool as [a|].
  - destruct (Hlive a eq_refl) as [p Hp]. unfold thread_pool_destroy_begin.
    rewrite Hp. simpl. destruct (decide (shutdown p ≠ 0)) as [Hs|Hs].
    + eexists _, _. split; [done|]. split; [done|]. intros a' p' [= <-] Hp' _.
      done.
    + eexists _, _. split; [done|]. split; [done|]. intros a' p' [= <-] Hp' Hs'.
      rewrite Hp in Hp'. by simplify_eq.
  - exists m, (DestroyReturned (-1)). split; [done|]. split; [done|]. done.
Qed.

(** Claim C5 at Create(1); Destroy; Destroy: the first Destroy completes and
    frees the pool structure, so the second call loads the lock and the
    shutdown flag through a dangling handle, which is undefined. *)
Theorem second_destroy_reads_freed_pool :
  boot_run 1 (env_ok 1) [LDestroy; LWork 0 true; LJoin] = Some sys_destroyed ∧
  pools (mem sys_destroyed) !! handle sys_destroyed = None ∧
  thread_pool_destroy_begin (mem sys_destroyed) (Some (handle sys_destroyed)) = None.
Proof. repeat split; vm_compute; reflexivity. Qed.

Lemma copy_names_idle env slots i n acc :
  (∀ j, (i ≤ j < i + n)%nat → slots !! j = Some idle_slot) →
  ∃ r, copy_names env slots i n acc = Some r ∧
    (r = None ↔ ∃ j, (i ≤ j < i + n)%nat ∧ malloc_copy_ok env j = false) ∧
    (∀ arr, r = Some arr → arr = acc ++ replicate n idle_copy).
Proof.
  revert i acc. induction n as [|n IH]; intros i acc Hslots; simpl.
  - exists (Some acc). split; [done|]. split.
    + split; [done|]. intros (j & ? & _). lia.
    + intros arr [= <-]. by rewrite app_nil_r.
  - destruct (malloc_copy_ok env i) eqn:Hok.
    + rewrite (Hslots i) by lia. simpl.
      destruct (IH (S i) (acc ++ [idle_copy])) as (r & Hr & Hnone & Hsome).
      { intros j Hj. apply Hslots. lia. }
      exists r. split; [exact Hr|]. split.
      * rewrite Hnone. split; intros (j & Hj & Hf).
        -- exists j. split; [lia|done].
        -- exists j. split; [|done].
           destruct (decide (j = i)) as [->|]; [congruence|lia].
      * intros arr Harr. rewrite (Hsome arr Harr), <- app_assoc. done.
    + exists None. split; [done|]. split; [|done].
      split; [|done]. intros _. exists i. split; [lia|done].
Qed.

(** Claim C8: in any state reached from a successful Create(k) in which
    nothing has been submitted, whatever the workers did in between,
    QueryRunningTaskNames returns NULL exactly when one of its own
    allocations fails, and otherwise an array of exactly k strings, each equal
    to the idle sentinel ["[idle]"]. *)
Theorem idle_reporting k env sched s p nenv :
  boot_run k env sched = Some s →
  pools (mem s) !! handle s = Some p →
  submitted s = [] →
  ∃ r,
    thread_pool_get_running_task_names (mem s) (Some (handle s)) nenv = Some r ∧
    (r = None ↔
       malloc_array_ok nenv = false ∨
       ∃ j, (j < Z.to_nat k)%nat ∧ malloc_copy_ok nenv j = false) ∧
    (∀ arr, r = Some arr →
       Z.of_nat (length arr) = k ∧
       Forall (λ b, c_str b = lit "[idle]") arr).
Proof.
  intros Hb Hp Hsub.
  destruct (slots_idle_before_submit _ _ _ _ _ Hb Hp Hsub) as [Hnames Htc].
  destruct (boot_run_inv _ _ _ _ Hb) as (_ & _ & Hk & _).
  unfold thread_pool_get_running_task_names. rewrite Hp. simpl.
  rewrite Hnames, Htc.
  destruct (malloc_array_ok nenv) eqn:Harr; simpl.
  - destruct (copy_names_idle nenv (replicate (Z.to_nat k) idle_slot) 0 (Z.to_nat k) [])
      as (r & Hr & Hnone & Hsome).
    { intros j Hj. apply lookup_replicate_2. lia. }
    exists r. split; [exact Hr|]. split.
    + rewrite Hnone. split.
      * intros (j & Hj & Hf). right. exists j. split; [lia|done].
      * intros [?|(j & Hj & Hf)]; [done|]. exists j. split; [lia|done].
    + intros arr Ha. rewrite (Hsome arr Ha). simpl. rewrite length_replicate.
      split; [lia|]. apply Forall_replicate. vm_compute. reflexivity.
  - exists None. split; [done|]. split; [|done]. split; [|done]. intros _. by left.
Qed.

Lemma idle_reporting_witness :
  ∃ r,
    thread_pool_get_running_task_names mem_created (Some 1%positive) names_env_ok
      = Some r ∧
    (r = None ↔
       malloc_array_ok names_env_ok = false ∨
       ∃ j, (j < Z.to_nat 1)%nat ∧ malloc_copy_ok names_env_ok j = false) ∧
    (∀ arr, r = Some arr →
       Z.of_nat (length arr) = 1 ∧
       Forall (λ b, c_str b = lit "[idle]") arr).
Proof.
  apply (idle_reporting 1 (env_ok 1) [LWork 0 true]
           (Sys mem_created 1%positive [WLoop] [] [] [] [] 0)
           (pool1 None None 0 0) names_env_ok);
    vm_compute; reflexivity.
Defined.

(** Claim C10: from a well-formed queue, enqueue (whatever the allocation
    gives), dequeue (whatever the allocation gives) and drain all return, and
    leave a well-formed queue; in a well-formed queue the head is NULL iff the
    tail is NULL, and both are NULL iff the recorded size is 0. The queue of
    every reachable pool is well formed ([reachable_queue_wf]). *)
Theorem queue_operations_keep_fields h pool :
  queue_wf h pool →
  queue_fields_ok pool ∧
  (∀ t new_node,
     malloc_result_ok h new_node = true → task_queue_size pool < INT_MAX →
     ∃ h' pool' r,
       task_enqueue_internal h pool t new_node = Some (h', pool', r) ∧
       queue_wf h' pool' ∧ queue_fields_ok pool') ∧
  (∀ alloc_ok,
     ∃ h' pool' r,
       task_dequeue_internal h pool alloc_ok = Some (h', pool', r) ∧
       queue_wf h' pool' ∧ queue_fields_ok pool') ∧
  (∃ h' pool',
     task_queue_destroy_internal h pool = Some (h', pool') ∧
     queue_wf h' pool' ∧ queue_fields_ok pool').
Proof.
  intros [ns Hrep]. split; [by eapply queue_rep_fields_ok|]. split; [|split].
  - intros t [n|] Hm Hlt.
    + apply bool_decide_eq_true in Hm.
      destruct (enqueue_rep _ _ _ t n Hrep Hm Hlt) as (h' & p' & He & Hrep' & _).
      exists h', p', 0. split; [done|]. split; [by eexists|by eapply queue_rep_fields_ok].
    + exists h, pool, (-1). split; [done|].
      split; [by eexists|by eapply queue_rep_fields_ok].
  - intros [|].
    + destruct ns as [|[l t] ns'].
      * exists h, pool, None. split.
        { unfold task_dequeue_internal. destruct Hrep as (Hs & _). simpl in Hs.
          by rewrite Hs. }
        split; [by eexists|by eapply queue_rep_fields_ok].
      * destruct (dequeue_rep _ _ _ _ _ Hrep) as (p' & Hd & Hrep' & _).
        eexists _, p', _. split; [exact Hd|].
        split; [by eexists|by eapply queue_rep_fields_ok].
    + exists h, pool, None. split.
      { unfold task_dequeue_internal. by destruct (head pool). }
      split; [by eexists|by eapply queue_rep_fields_ok].
  - destruct (drain_rep _ _ _ Hrep) as (p' & Hd & Hrep' & _).
    eexists _, p'. split; [exact Hd|].
    split; [by eexists|by eapply queue_rep_fields_ok].
Qed.

Lemma queue_operations_keep_fields_witness :
  queue_fields_ok (pool1 None None 0 0) ∧
  (∀ t new_node,
     malloc_result_ok ∅ new_node = true →
     task_queue_size (pool1 None None 0 0) < INT_MAX →
     ∃ h' pool' r,
       task_enqueue_internal ∅ (pool1 None None 0 0) t new_node = Some (h', pool', r) ∧
       queue_wf h' pool' ∧ queue_fields_ok pool') ∧
  (∀ alloc_ok,
     ∃ h' pool' r,
       task_dequeue_internal ∅ (pool1 None None 0 0) alloc_ok = Some (h', pool', r) ∧
       queue_wf h' pool' ∧ queue_fields_ok pool') ∧
  (∃ h' pool',
     task_queue_destroy_internal ∅ (pool1 None None 0 0) = Some (h', pool') ∧
     queue_wf h' pool' ∧ queue_fields_ok pool').
Proof.
  apply (queue_operations_keep_fields ∅ (pool1 None None 0 0)).
  exists []. repeat split; simpl; try reflexivity. apply NoDup_nil_2.
Defined.

Lemma reachable_queue_wf k env sched s p :
  boot_run k env sched = Some s → pools (mem s) !! handle s = Some p →
  queue_wf (nodes (mem s)) p.
Proof.
  intros Hb Hp. destruct (boot_run_inv _ _ _ _ Hb) as ([_ Hinv] & _).
  rewrite Hp in Hinv. destruct Hinv as (ns & Hrep & _). by exists ns.
Qed.

(** ** Creation in full *)




(** ** The flag is final, workers stay, nodes are not lost *)

Lemma run_closed_stays s sched s' :
  sys_inv s → closed s → run s sched = Some s' → closed s'.
Proof.
  revert s. induction sched as [|l sched IH]; simpl; intros s Hinv Hcl H.
  - by simplify_eq.
  - destruct (step s l) as [s1|] eqn:Hs; simpl in H; [|done].
    destruct (step_closed _ _ _ Hinv Hcl Hs) as [Hcl1 _].
    apply (IH s1); [by eapply step_inv|done|done].
Qed.

(** Once the shutdown flag is set it stays set for as long as the pool
    structure exists, and no Submit is accepted any more. *)
Theorem shutdown_is_final k env sched1 s1 sched2 s2 :
  boot_run k env sched1 = Some s1 →
  closed s1 →
  run s1 sched2 = Some s2 →
  closed s2 ∧ submitted s2 = submitted s1.
Proof.
  intros Hb Hcl Hrun. destruct (boot_run_inv _ _ _ _ Hb) as (Hinv & _).
  split; [by eapply run_closed_stays|by eapply run_closed].
Qed.

Lemma shutdown_is_final_witness :
  closed sys_T1_done ∧ submitted sys_T1_done = submitted sys_T1_flagged.
Proof.
  apply (shutdown_is_final 1 (env_ok 1) [submit_T1; LDestroy] sys_T1_flagged
           drain_after_flag sys_T1_done).
  - vm_compute. reflexivity.
  - vm_compute. lia.
  - vm_compute. reflexivity.
Defined.

(** A worker terminates only after Destroy has set the flag: while the flag
    is clear all workers of the pool are alive, whatever failed before. *)
Theorem no_exit_before_shutdown k env sched s p :
  boot_run k env sched = Some s →
  pools (mem s) !! handle s = Some p →
  shutdown p = 0 →
  length (workers s) = Z.to_nat k ∧ WExit ∉ workers s.
Proof.
  intros Hb Hp Hs. destruct (boot_run_inv _ _ _ _ Hb) as ([_ Hinv] & Hlen & _).
  rewrite Hp in Hinv.
  destruct Hinv as (ns & _ & _ & _ & _ & _ & _ & _ & _ & Hexit). auto.
Qed.

Lemma no_exit_before_shutdown_witness :
  length (workers sys_T1_queued) = Z.to_nat 1 ∧ WExit ∉ workers sys_T1_queued.
Proof.
  apply (no_exit_before_shutdown 1 (env_ok 1) [submit_T1] sys_T1_queued
           (pool1 (Some 1%positive) (Some 1%positive) 1 0));
    vm_compute; reflexivity.
Defined.

(** *** Node accounting *)

Lemma enqueue_size h pool t n h' pool' r :
  h !! n = None →
  task_enqueue_internal h pool t (Some n) = Some (h', pool', r) →
  size h' = S (size h).
Proof.
  intros Hn. unfold task_enqueue_internal.
  destruct (tail pool) as [tl|]; simpl.
  - destruct (<[n:=Node t None]> h !! tl) as [nd|] eqn:Htl; simpl; [|done].
    destruct (int_incr _); simpl; [|done]. intros [= <- _ _].
    rewrite map_size_insert_Some by (by eexists). by apply map_size_insert_None.
  - destruct (int_incr _); simpl; [|done]. intros [= <- _ _].
    by apply map_size_insert_None.
Qed.

Lemma add_task_size m a f arg name nn m' r :
  malloc_result_ok (nodes m) nn = true →
  thread_pool_add_task m (Some a) f arg name nn = Some (m', r) →
  size (nodes m') = if decide (r = 0) then S (size (nodes m)) else size (nodes m).
Proof.
  intros Hm. unfold thread_pool_add_task.
  destruct f as [fp|]; [|by intros [= <- <-]].
  destruct (pools m !! a) as [p|]; simpl; [|done].
  destruct (decide (shutdown p ≠ 0)) as [Hs|Hs]; [by intros [= <- <-]|].
  destruct (task_enqueue_internal _ _ _ _) as [[[h' p'] r']|] eqn:He; simpl; [|done].
  destruct nn as [n|].
  - apply bool_decide_eq_true in Hm.
    pose proof (enqueue_size _ _ _ _ _ _ _ Hm He) as Hsz.
    unfold task_enqueue_internal in He.
    assert (r' = 0) as ->.
    { destruct (tail p) as [tl|]; simpl in He.
      - destruct (_ !! tl); simpl in He; [|done].
        destruct (int_incr _); simpl in He; [|done]. by simplify_eq.
      - destruct (int_incr _); simpl in He; [|done]. by simplify_eq. }
    rewrite decide_False by lia. by intros [= <- <-].
  - unfold task_enqueue_internal in He. injection He as <- <- <-.
    rewrite decide_True by lia. by intros [= <- <-].
Qed.

Lemma size_foldr_delete (h : gmap positive task_node_t) (ls : list positive) :
  NoDup ls → (∀ l, l ∈ ls → is_Some (h !! l)) →
  (size (foldr delete h ls) + length ls = size h)%nat.
Proof.
  revert h. induction ls as [|l ls IH]; intros h Hnd Hall; simpl; [lia|].
  apply NoDup_cons in Hnd as [Hni Hnd].
  rewrite <- foldr_delete_commute.
  assert (is_Some (h !! l)) as [nd Hl] by (apply Hall, elem_of_cons; by left).
  assert (Hsz : size h = S (size (delete l h))).
  { rewrite <- (insert_delete_id h l nd) at 1 by done.
    apply map_size_insert_None, lookup_delete_eq. }
  rewrite Hsz, <- (IH (delete l h) Hnd); [lia|].
  intros l' Hl'. rewrite lookup_delete_ne by (intros ->; done).
  apply Hall, elem_of_cons. by right.
Qed.

Lemma step_nodes s l s' :
  sys_inv s → nodes_inv s → step s l = Some s' → nodes_inv s'.
Proof.
  intros [_ Hinv] Hn Hstep. unfold nodes_inv in *.
  destruct (pools (mem s) !! handle s) as [p|] eqn:Hp;
    [|by rewrite step_freed in Hstep].
  destruct Hinv as (ns & Hrep & _).
  destruct l as [f a name nn|i ok|i| |].
  - apply step_submit_inv in Hstep as (p0 & m' & r & Hm & Hp0 & Ha & ->).
    same_pool Hp Hp0. pose proof (add_task_size _ _ _ _ _ _ _ _ Hm Ha) as Hsz.
    destruct (add_task_live _ _ _ _ _ _ _ _ _ _ Hp Hrep Hm Ha)
      as [(-> & -> & Hwhy)|(-> & fp & n & h' & p' & -> & -> & Hs0 & -> & Hrep' & _)].
    + simpl. by rewrite Hp.
    + simpl in *. rewrite lookup_insert_eq. rewrite Hsz.
      destruct Hrep as (_ & _ & _ & Hl). destruct Hrep' as (_ & _ & _ & ->).
      rewrite length_app. simpl. lia.
  - apply step_work_inv in Hstep as (p0 & h' & p' & pc & Hw & Hp0 & Hd & ->).
    same_pool Hp Hp0. simpl. rewrite lookup_insert_eq.
    destruct (dispatch_live _ _ _ _ _ _ _ _ Hrep Hd)
      as [(-> & -> & -> & _)|[(-> & -> & -> & _)|
          (l & t & ns' & slot & -> & -> & -> & -> & Hrep' & _)]]; try done.
    assert (is_Some (nodes (mem s) !! l)) as Hl.
    { destruct Hrep as ((_ & nx & Hl & _) & _). by eexists. }
    destruct Hl as [nd Hl].
    assert (Hsz : size (nodes (mem s)) = S (size (delete l (nodes (mem s))))).
    { rewrite <- (insert_delete_id (nodes (mem s)) l nd) at 1 by done.
      apply map_size_insert_None, lookup_delete_eq. }
    destruct Hrep as (_ & _ & _ & Hlen). destruct Hrep' as (_ & _ & _ & ->).
    simpl in Hlen. lia.
  - apply step_run_inv in Hstep as (t & p0 & p' & Hw & Hp0 & Hf & ->).
    same_pool Hp Hp0. apply finish_live in Hf as (slot & Hslot & ->).
    simpl. by rewrite lookup_insert_eq.
  - apply step_destroy_inv in Hstep as (p0 & m' & r & Hp0 & Hd & ->).
    same_pool Hp Hp0.
    destruct (destroy_begin_live _ _ _ _ _ Hp Hd) as [(Hs & -> & ->)|(Hs & -> & ->)].
    + simpl. by rewrite Hp.
    + simpl. by rewrite lookup_insert_eq.
  - apply step_join_inv in Hstep as (p0 & m' & r & Hp0 & Hs & Hall & Hd & ->).
    same_pool Hp Hp0.
    destruct (destroy_finish_live _ _ _ _ _ _ Hp Hrep Hd) as (-> & ->).
    simpl. rewrite lookup_delete_eq. apply map_size_empty_iff.
    pose proof (size_foldr_delete (nodes (mem s)) ns.*1) as Hsz.
    destruct Hrep as (Hs' & Hnd & _ & Hlen).
    rewrite length_fmap in Hsz. specialize (Hsz Hnd).
    assert ((size (foldr delete (nodes (mem s)) ns.*1) + length ns)%nat
            = size (nodes (mem s))) as Heq.
    { apply Hsz. intros l Hl. by eapply lseg_allocated. }
    lia.
Qed.

Lemma run_nodes s sched s' :
  sys_inv s → nodes_inv s → run s sched = Some s' → nodes_inv s'.
Proof.
  revert s. induction sched as [|l sched IH]; simpl; intros s Hinv Hn H.
  - by simplify_eq.
  - destruct (step s l) as [s1|] eqn:Hs; simpl in H; [|done].
    eapply IH; [| |done]; [by eapply step_inv|by eapply step_nodes].
Qed.

Lemma boot_run_nodes k env sched s : boot_run k env sched = Some s → nodes_inv s.
Proof.
  unfold boot_run. destruct (boot k env) as [s0|] eqn:Hb; simpl; [|done].
  intros Hrun. destruct (boot_inv _ _ _ Hb) as (Hinv & _).
  apply (run_nodes s0 sched s Hinv); [|done].
  apply boot_some in Hb as (a & Hk & ->). unfold nodes_inv. simpl.
  by rewrite lookup_singleton_eq.
Qed.

(** Every queue node is accounted for: while the pool lives the number of
    allocated nodes is the recorded queue length, and once Destroy has
    completed no node is left allocated. *)
Theorem no_node_leak k env sched s :
  boot_run k env sched = Some s →
  match pools (mem s) !! handle s with
  | Some p => Z.of_nat (size (nodes (mem s))) = task_queue_size p
  | None => nodes (mem s) = ∅
  end.
Proof. apply boot_run_nodes. Qed.

Lemma no_node_leak_witness : nodes (mem sys_T1_done) = ∅.
Proof.
  apply (no_node_leak 1 (env_ok 1) (submit_T1 :: shutdown_and_drain) sys_T1_done).
  vm_compute. reflexivity.
Defined.

(** ** What the status query shows, and the order of the queue *)

Lemma c_str_length_le s : (length (c_str s) ≤ length s)%nat.
Proof.
  induction s as [|c s IH]; simpl; [done|].
  destruct (Ascii.eqb c NUL); simpl; lia.
Qed.

Lemma slot_copy_c_str slot :
  length slot = MAX_TASK_NAME_LEN →
  c_str (slot_copy slot) = take (MAX_TASK_NAME_LEN - 1) (c_str slot).
Proof.
  unfold slot_copy, strncpy, MAX_TASK_NAME_LEN. intros Hl.
  change (64 - 1)%nat with 63%nat. change (drop 64 uninit_buf) with (@nil ascii).
  rewrite app_nil_r.
  pose proof (c_str_length_le slot) as Hle. rewrite Hl in Hle.
  rewrite take_ge by lia.
  destruct (decide (length (c_str slot) = 64%nat)) as [H64|Hlt].
  - rewrite H64. simpl. rewrite app_nil_r.
    rewrite <- (take_drop 63 (c_str slot)) at 1.
    assert (Hd : length (drop 63 (c_str slot)) = 1%nat) by (rewrite length_drop; lia).
    destruct (drop 63 (c_str slot)) as [|x [|y r]]; simpl in Hd; try lia.
    rewrite insert_app_r_alt by (rewrite length_take; lia).
    rewrite length_take. replace (63 - 63 `min` length (c_str slot))%nat with 0%nat by lia.
    simpl. apply c_str_app_nul, take_c_str_no_nul.
  - rewrite (take_ge (c_str slot)) by lia.
    rewrite insert_app_r_alt by lia.
    rewrite list_insert_id.
    + destruct (64 - length (c_str slot))%nat as [|n] eqn:Hn; [lia|].
      simpl. apply c_str_app_nul, c_str_no_nul.
    + apply lookup_replicate_2. lia.
Qed.

Lemma copy_names_all env slots i n acc :
  (∀ j, (i ≤ j < i + n)%nat → malloc_copy_ok env j = true) →
  (i + n ≤ length slots)%nat →
  copy_names env slots i n acc
  = Some (Some (acc ++ (slot_copy <$> take n (drop i slots)))).
Proof.
  revert i acc. induction n as [|n IH]; intros i acc Hok Hlen.
  - simpl. by rewrite app_nil_r.
  - cbn [copy_names]. rewrite Hok by lia.
    destruct (slots !! i) as [slot|] eqn:Hs;
      [|apply lookup_ge_None in Hs; lia].
    simpl. fold (slot_copy slot). rewrite IH by (try lia; intros j Hj; apply Hok; lia).
    rewrite (drop_S _ _ _ Hs). simpl. by rewrite <- app_assoc.
Qed.

(** With its allocations granted, the status query returns one string per
    worker: the name of the task that the worker holds, cut to 63 characters,
    or the sentinel for a worker that holds none. *)
Theorem query_shows_running_tasks k env sched s p nenv :
  boot_run k env sched = Some s →
  pools (mem s) !! handle s = Some p →
  malloc_array_ok nenv = true →
  (∀ j, (j < Z.to_nat k)%nat → malloc_copy_ok nenv j = true) →
  ∃ arr,
    thread_pool_get_running_task_names (mem s) (Some (handle s)) nenv
      = Some (Some arr) ∧
    c_str <$> arr = shown_name <$> workers s.
Proof.
  intros Hb Hp Harr Hcopies.
  pose proof (boot_run_slots _ _ _ _ Hb) as Hsl.
  destruct (boot_run_inv _ _ _ _ Hb) as ([_ Hinv] & Hlen & Hk & _).
  unfold slots_inv in Hsl. rewrite Hp in *.
  destruct Hinv as (ns & _ & _ & _ & _ & _ & Hnl & Htc & _).
  unfold thread_pool_get_running_task_names. rewrite Hp. simpl. rewrite Harr. simpl.
  assert (Hn : Z.to_nat (thread_count p) = length (running_task_names p)) by lia.
  rewrite Hn, copy_names_all.
  - eexists. split; [done|]. simpl. rewrite drop_0, take_ge by lia.
    clear -Hsl. induction Hsl as [|w slot ws slots [Hl Hw] _ IH]; [done|].
    simpl. f_equal; [|done]. rewrite slot_copy_c_str by done.
    destruct w; simpl in *; try (rewrite Hw; reflexivity).
    rewrite Hw. rewrite take_take. f_equal.
  - intros j Hj. apply Hcopies. lia.
  - simpl. lia.
Qed.

Lemma query_shows_running_tasks_witness :
  ∃ arr,
    thread_pool_get_running_task_names (mem sys_T1_running)
      (Some (handle sys_T1_running)) names_env_ok = Some (Some arr) ∧
    c_str <$> arr = shown_name <$> workers sys_T1_running.
Proof.
  apply (query_shows_running_tasks 1 (env_ok 1) [submit_T1; LWork 0 true]
           sys_T1_running
           (Pool 1 None None 0 0 1
                 [snprintf_s idle_slot MAX_TASK_NAME_LEN (task_name task_T1)])
           names_env_ok).
  - vm_compute. reflexivity.
  - vm_compute. reflexivity.
  - reflexivity.
  - reflexivity.
Defined.

(** A successful Submit appends exactly its task at the tail of the queue
    and counts it; flag, slots and worker count stay, and no other pool is
    touched. *)
Theorem add_task_appends m a p f argument name n m' :
  pools m !! a = Some p →
  queue_wf (nodes m) p →
  nodes m !! n = None →
  thread_pool_add_task m (Some a) (Some f) argument name (Some n) = Some (m', 0) →
  ∃ p',
    pools m' !! a = Some p' ∧ queue_wf (nodes m') p' ∧
    queued_tasks (nodes m') p'
      = queued_tasks (nodes m) p ++ [Task (Some f) argument (prepare_task_name name)] ∧
    task_queue_size p' = task_queue_size p + 1 ∧
    shutdown p' = shutdown p ∧ thread_count p' = thread_count p ∧
    running_task_names p' = running_task_names p ∧
    (∀ b, b ≠ a → pools m' !! b = pools m !! b).
Proof.
  intros Hp [ns Hrep] Hn Ha.
  assert (Hm : malloc_result_ok (nodes m) (Some n) = true) by by apply bool_decide_eq_true.
  destruct (add_task_live _ _ _ _ _ _ _ _ _ _ Hp Hrep Hm Ha)
    as [(? & _)|(_ & fp & n' & h' & p' & [= <-] & [= <-] & Hs0 & -> & Hrep' & Htc & Hsd & Hnm)];
    [lia|].
  exists p'. simpl. rewrite lookup_insert_eq. split; [done|]. split; [by eexists|].
  rewrite (queued_tasks_rep _ _ _ Hrep), (queued_tasks_rep _ _ _ Hrep').
  split; [by rewrite fmap_app|].
  split.
  { destruct Hrep as (_ & _ & _ & ->). destruct Hrep' as (_ & _ & _ & ->).
    rewrite length_app. simpl. lia. }
  repeat split; try done. intros b Hb. by rewrite lookup_insert_ne.
Qed.

Lemma add_task_appends_witness :
  ∃ p',
    pools (mem sys_T1_queued) !! 1%positive = Some p' ∧
    queue_wf (nodes (mem sys_T1_queued)) p' ∧
    queued_tasks (nodes (mem sys_T1_queued)) p'
      = queued_tasks (nodes mem_created) (pool1 None None 0 0)
        ++ [Task (Some 7%positive) None (prepare_task_name (Some (lit "T1")))] ∧
    task_queue_size p' = task_queue_size (pool1 None None 0 0) + 1 ∧
    shutdown p' = shutdown (pool1 None None 0 0) ∧
    thread_count p' = thread_count (pool1 None None 0 0) ∧
    running_task_names p' = running_task_names (pool1 None None 0 0) ∧
    (∀ b, b ≠ 1%positive →
          pools (mem sys_T1_queued) !! b = pools mem_created !! b).
Proof.
  apply (add_task_appends mem_created 1%positive (pool1 None None 0 0)
           7%positive None (Some (lit "T1")) 1%positive (mem sys_T1_queued)).
  - reflexivity.
  - exists []. repeat split; simpl; try reflexivity. apply NoDup_nil_2.
  - reflexivity.
  - vm_compute. reflexivity.
Defined.

(** A worker that finds the queue non-empty, and whose copy allocation
    succeeds, takes the task at the head, also when the shutdown flag is set:
    the queue loses exactly its first task, the length goes down by one and
    the worker's slot reads as the name of the task. *)
Theorem worker_takes_oldest h p i t rest slot :
  queue_wf h p →
  queued_tasks h p = t :: rest →
  running_task_names p !! i = Some slot →
  ∃ h' p',
    worker_dispatch h p i true = Some (h', p', WRun t) ∧
    queue_wf h' p' ∧ queued_tasks h' p' = rest ∧
    task_queue_size p' = task_queue_size p - 1 ∧
    shutdown p' = shutdown p ∧
    (c_str <$> running_task_names p' !! i)
      = Some (take (MAX_TASK_NAME_LEN - 1) (c_str (task_name t))).
Proof.
  intros [ns Hrep] Hq Hslot.
  rewrite (queued_tasks_rep _ _ _ Hrep) in Hq.
  destruct ns as [|[l t0] ns']; [done|]. simpl in Hq. injection Hq as -> <-.
  destruct (dequeue_rep _ _ _ _ _ Hrep) as (p1 & Hd & Hrep1 & Htc & Hsd & _ & Hnm).
  assert (Hsz : task_queue_size p = Z.of_nat (S (length ns'))) by apply Hrep.
  unfold worker_dispatch.
  rewrite decide_False by lia. rewrite decide_False by lia.
  rewrite Hd. simpl. rewrite Hnm, Hslot. simpl.
  eexists _, _. split; [done|]. split; [by exists ns'|].
  split; [by apply (queued_tasks_rep _ _ ns')|]. simpl.
  split; [destruct Hrep1 as (_ & _ & _ & ->); lia|]. split; [done|].
  rewrite list_lookup_insert_eq by (by eapply lookup_lt_Some). simpl.
  by rewrite snprintf_s_c_str.
Qed.

Lemma worker_takes_oldest_witness :
  ∃ h' p',
    worker_dispatch (nodes (mem sys_T1_flagged))
      (pool1 (Some 1%positive) (Some 1%positive) 1 1) 0 true
      = Some (h', p', WRun task_T1) ∧
    queue_wf h' p' ∧ queued_tasks h' p' = [] ∧
    task_queue_size p'
      = task_queue_size (pool1 (Some 1%positive) (Some 1%positive) 1 1) - 1 ∧
    shutdown p' = shutdown (pool1 (Some 1%positive) (Some 1%positive) 1 1) ∧
    (c_str <$> running_task_names p' !! 0%nat)
      = Some (take (MAX_TASK_NAME_LEN - 1) (c_str (task_name task_T1))).
Proof.
  apply (worker_takes_oldest (nodes (mem sys_T1_flagged))
           (pool1 (Some 1%positive) (Some 1%positive) 1 1) 0 task_T1 [] idle_slot).
  - exists [(1%positive, task_T1)]. repeat split; simpl; try reflexivity.
    + exists None. split; reflexivity.
    + apply NoDup_singleton.
  - vm_compute. reflexivity.
  - reflexivity.
Defined.

(** ** Destroy runs to completion *)

Lemma run_app s a b : run s (a ++ b) = run s a ≫= λ s', run s' b.
Proof.
  revert s. induction a as [|l a IH]; intros s; simpl; [done|].
  destruct (step s l) as [s1|]; simpl; [apply IH|done].
Qed.

Lemma boot_run_app k env sched s sched' s' :
  boot_run k env sched = Some s → run s sched' = Some s' →
  boot_run k env (sched ++ sched') = Some s'.
Proof.
  unfold boot_run. destruct (boot k env) as [s0|]; simpl; [|done].
  intros H1 H2. by rewrite run_app, H1.
Qed.

Lemma running_tasks_some ws :
  running_tasks ws ≠ [] → ∃ i t, ws !! i = Some (WRun t).
Proof.
  induction ws as [|w ws IH]; simpl; [done|]. destruct w.
  - intros H. destruct (IH H) as (i & t & Hi). by exists (S i), t.
  - intros _. by exists 0%nat, t.
  - intros H. destruct (IH H) as (i & t & Hi). by exists (S i), t.
Qed.

Lemma loop_some ws :
  running_tasks ws = [] → forallb exited ws = false → ∃ i, ws !! i = Some WLoop.
Proof.
  induction ws as [|w ws IH]; simpl; [done|]. destruct w; simpl.
  - intros _ _. by exists 0%nat.
  - done.
  - intros H1 H2. destruct (IH H1 H2) as (i & Hi). by exists (S i).
Qed.

Lemma count_loop_exit ws i :
  ws !! i = Some WLoop → count_loop ws = S (count_loop (<[i := WExit]> ws)).
Proof.
  revert i. induction ws as [|w ws IH]; intros [|i] Hi; simpl in *; try done.
  - by simplify_eq.
  - destruct w; simpl; by rewrite ?(IH i).
Qed.

Lemma step_run_fwd s i t size :
  flagged_live s size → workers s !! i = Some (WRun t) →
  ∃ s', step s (LRun i) = Some s' ∧ flagged_live s' size ∧
        workers s' = <[i := WLoop]> (workers s).
Proof.
  intros (Hinv & p & Hp & Hs & Hsz) Hw.
  assert (is_Some (running_task_names p !! i)) as [slot Hslot].
  { apply lookup_lt_is_Some. destruct Hinv as [_ Hi]. rewrite Hp in Hi.
    destruct Hi as (ns & _ & _ & _ & _ & _ & -> & _). by eapply lookup_lt_Some. }
  assert (Hstep : step s (LRun i)
    = Some (Sys (Mem (nodes (mem s))
                     (<[handle s := set_running_task_names
                          (<[i := copy_name slot (lit "[idle]")]> (running_task_names p)) p]>
                        (pools (mem s))))
                (handle s) (<[i := WLoop]> (workers s))
                (submitted s) (dequeued s) (invoked s ++ [t]) (discarded s)
                (enqueue_calls s))).
  { unfold step. rewrite Hw, Hp. simpl. unfold worker_finish. by rewrite Hslot. }
  eexists. split; [exact Hstep|]. split; [|done].
  split; [by eapply step_inv|]. simpl. rewrite lookup_insert_eq. eauto.
Qed.

Lemma step_exit_fwd s i :
  flagged_live s 0 → workers s !! i = Some WLoop →
  ∃ s', step s (LWork i true) = Some s' ∧ flagged_live s' 0 ∧
        workers s' = <[i := WExit]> (workers s).
Proof.
  intros (Hinv & p & Hp & Hs & Hsz) Hw.
  assert (Hstep : step s (LWork i true)
    = Some (Sys (Mem (nodes (mem s)) (<[handle s := p]> (pools (mem s))))
                (handle s) (<[i := WExit]> (workers s))
                (submitted s) (dequeued s) (invoked s) (discarded s)
                (enqueue_calls s))).
  { unfold step. rewrite Hw, Hp. simpl. unfold worker_dispatch.
    rewrite decide_False by (intros [_ ?]; done).
    by rewrite decide_True. }
  eexists. split; [exact Hstep|]. split; [|done].
  split; [by eapply step_inv|]. simpl. rewrite lookup_insert_eq. eauto.
Qed.

Lemma step_take_fwd s i size :
  flagged_live s size → size ≠ 0 → workers s !! i = Some WLoop →
  ∃ s' t, step s (LWork i true) = Some s' ∧ flagged_live s' (size - 1) ∧
          workers s' = <[i := WRun t]> (workers s).
Proof.
  intros (Hinv & p & Hp & Hs & Hsz) Hne Hw.
  pose proof Hinv as [_ Hi]. rewrite Hp in Hi.
  destruct Hi as (ns & Hrep & _ & _ & _ & _ & Hnl & _).
  assert (is_Some (running_task_names p !! i)) as [slot Hslot].
  { apply lookup_lt_is_Some. rewrite Hnl. by eapply lookup_lt_Some. }
  destruct ns as [|[l t] ns'].
  { destruct Hne. rewrite <- Hsz. by apply (queue_rep_size_zero _ _ _ Hrep). }
  destruct (dequeue_rep _ _ _ _ _ Hrep) as (p1 & Hd & Hrep1 & Htc & Hsd & _ & Hnm).
  assert (Hstep : step s (LWork i true)
    = Some (Sys (Mem (delete l (nodes (mem s)))
                     (<[handle s := set_running_task_names
                          (<[i := snprintf_s slot MAX_TASK_NAME_LEN (task_name t)]>
                             (running_task_names p1)) p1]>
                        (pools (mem s))))
                (handle s) (<[i := WRun t]> (workers s))
                (submitted s) (dequeued s ++ [t]) (invoked s) (discarded s)
                (enqueue_calls s))).
  { unfold step. rewrite Hw, Hp. simpl. unfold worker_dispatch.
    rewrite decide_False by (intros [? _]; lia).
    rewrite decide_False by (intros [_ ?]; lia).
    rewrite Hd. simpl. rewrite Hnm, Hslot. done. }
  eexists _, t. split; [exact Hstep|]. split; [|done].
  split; [by eapply step_inv|]. simpl. rewrite lookup_insert_eq.
  eexists. split; [done|]. simpl. split; [by rewrite Hsd|].
  destruct Hrep as (_ & _ & _ & Hl). destruct Hrep1 as (_ & _ & _ & ->).
  simpl in Hl. lia.
Qed.

Lemma step_destroy_fwd s p :
  sys_inv s → pools (mem s) !! handle s = Some p → shutdown p = 0 →
  ∃ s', step s LDestroy = Some s' ∧ flagged_live s' (task_queue_size p) ∧
        workers s' = workers s.
Proof.
  intros Hinv Hp Hs.
  assert (Hstep : step s LDestroy
    = Some (Sys (Mem (nodes (mem s)) (<[handle s := set_shutdown 1 p]> (pools (mem s))))
                (handle s) (workers s) (submitted s) (dequeued s) (invoked s)
                (discarded s) (enqueue_calls s))).
  { unfold step, thread_pool_destroy_begin. rewrite Hp. simpl.
    by rewrite decide_False by lia. }
  eexists. split; [exact Hstep|]. split; [|done].
  split; [by eapply step_inv|]. simpl. rewrite lookup_insert_eq.
  eexists. split; [done|]. simpl. split; [lia|done].
Qed.

Lemma step_join_fwd s size :
  flagged_live s size → forallb exited (workers s) = true →
  ∃ s', step s LJoin = Some s' ∧ pools (mem s') !! handle s' = None.
Proof.
  intros (Hinv & p & Hp & Hs & Hsz) Hall.
  pose proof Hinv as [_ Hi]. rewrite Hp in Hi. destruct Hi as (ns & Hrep & _).
  destruct (drain_rep _ _ _ Hrep) as (p1 & Hd & _).
  assert (Hstep : step s LJoin
    = Some (Sys (Mem (foldr delete (nodes (mem s)) ns.*1) (delete (handle s) (pools (mem s))))
                (handle s) (workers s) (submitted s) (dequeued s) (invoked s)
                (queued_tasks (nodes (mem s)) p) (enqueue_calls s))).
  { unfold step. rewrite Hp. simpl. rewrite decide_True by done. rewrite Hall.
    unfold thread_pool_destroy_finish. rewrite Hp. simpl. by rewrite Hd. }
  eexists. split; [exact Hstep|]. simpl. apply lookup_delete_eq.
Qed.

(** The workers that run a task finish it. *)
Lemma finish_runners n : ∀ s size,
  flagged_live s size → length (running_tasks (workers s)) = n →
  ∃ sched s',
    run s sched = Some s' ∧ forallb no_dequeue_failure sched = true ∧
    flagged_live s' size ∧ running_tasks (workers s') = [].
Proof.
  induction n as [|n IH]; intros s size Hfl Hlen.
  - exists [], s. split; [done|]. split; [done|]. split; [done|]. by apply nil_length_inv.
  - assert (running_tasks (workers s) ≠ []) as Hne by (intros E; by rewrite E in Hlen).
    destruct (running_tasks_some _ Hne) as (i & t & Hw).
    destruct (step_run_fwd _ _ _ _ Hfl Hw) as (s1 & Hstep & Hfl1 & Hws).
    destruct (IH s1 size Hfl1) as (sched & s' & Hrun & Hok & Hfl' & Hnone).
    { rewrite Hws. pose proof (running_tasks_finish _ _ _ Hw) as Hperm.
      apply Permutation_length in Hperm. simpl in Hperm. lia. }
    exists (LRun i :: sched), s'. simpl. rewrite Hstep. simpl. done.
Qed.

(** With the flag set and no task running, the workers empty the queue and
    exit one after the other. *)
Lemma drain_and_exit m : ∀ s size,
  flagged_live s size → running_tasks (workers s) = [] → 0 ≤ size →
  (Z.to_nat size + count_loop (workers s) ≤ m)%nat →
  ∃ sched s' size',
    run s sched = Some s' ∧ forallb no_dequeue_failure sched = true ∧
    flagged_live s' size' ∧ forallb exited (workers s') = true.
Proof.
  induction m as [|m IH]; intros s size Hfl Hnone Hpos Hm.
  - destruct (forallb exited (workers s)) eqn:Hall.
    + exists [], s, size. done.
    + destruct (loop_some _ Hnone Hall) as (i & Hw).
      pose proof (count_loop_exit _ _ Hw). lia.
  - destruct (forallb exited (workers s)) eqn:Hall.
    { exists [], s, size. done. }
    destruct (loop_some _ Hnone Hall) as (i & Hw).
    pose proof (count_loop_exit _ _ Hw) as Hcount.
    destruct (decide (size = 0)) as [->|Hne].
    + destruct (step_exit_fwd _ _ Hfl Hw) as (s1 & Hstep & Hfl1 & Hws).
      destruct (IH s1 0 Hfl1) as (sched & s' & size' & Hrun & Hok & Hfl' & Hall').
      { rewrite Hws. rewrite running_tasks_idle by auto. done. }
      { done. }
      { rewrite Hws. simpl in *. lia. }
      exists (LWork i true :: sched), s', size'. simpl. rewrite Hstep. simpl. done.
    + destruct (step_take_fwd _ _ _ Hfl Hne Hw) as (s1 & t & Hstep1 & Hfl1 & Hws1).
      assert (Hw1 : workers s1 !! i = Some (WRun t)).
      { rewrite Hws1. apply list_lookup_insert_eq. by eapply lookup_lt_Some. }
      destruct (step_run_fwd _ _ _ _ Hfl1 Hw1) as (s2 & Hstep2 & Hfl2 & Hws2).
      assert (Hws : workers s2 = workers s).
      { rewrite Hws2, Hws1, list_insert_insert_eq. by apply list_insert_id. }
      destruct (IH s2 (size - 1) Hfl2) as (sched & s' & size' & Hrun & Hok & Hfl' & Hall').
      { by rewrite Hws. }
      { lia. }
      { rewrite Hws. lia. }
      exists (LWork i true :: LRun i :: sched), s', size'. simpl.
      rewrite Hstep1. simpl. rewrite Hstep2. simpl. done.
Qed.

(** From every state in which Destroy has not been called yet, Destroy can
    run to completion: there is a continuation without a failed allocation in
    which the running tasks finish, the workers empty the queue and exit, the
    join returns and pool and nodes are freed; at its end every submitted task
    has been invoked exactly once. *)
Theorem destroy_completes k env sched s p :
  boot_run k env sched = Some s →
  pools (mem s) !! handle s = Some p →
  shutdown p = 0 →
  ∃ sched' s',
    forallb no_dequeue_failure sched' = true ∧
    run s (LDestroy :: sched') = Some s' ∧
    pools (mem s') !! handle s' = None ∧
    nodes (mem s') = ∅ ∧
    submitted s' = submitted s ∧
    submitted s' ≡ₚ invoked s'.
Proof.
  intros Hb Hp Hs. destruct (boot_run_inv _ _ _ _ Hb) as (Hinv & _).
  destruct (step_destroy_fwd _ _ Hinv Hp Hs) as (s1 & Hstep1 & Hfl1 & _).
  destruct (finish_runners _ s1 _ Hfl1 eq_refl) as (schedA & s2 & HrunA & HokA & Hfl2 & Hnone).
  assert (Hpos : 0 ≤ task_queue_size p).
  { destruct Hinv as [_ Hi]. rewrite Hp in Hi.
    destruct Hi as (ns & (_ & _ & _ & ->) & _). lia. }
  destruct (drain_and_exit _ s2 _ Hfl2 Hnone Hpos (Nat.le_refl _))
    as (schedB & s3 & size3 & HrunB & HokB & Hfl3 & Hall).
  destruct (step_join_fwd _ _ Hfl3 Hall) as (s4 & Hstep4 & Hp4).
  set (sched' := schedA ++ schedB ++ [LJoin]).
  assert (Hrun : run s (LDestroy :: sched') = Some s4).
  { simpl. rewrite Hstep1. simpl. unfold sched'.
    rewrite run_app, HrunA. simpl. rewrite run_app, HrunB. simpl.
    by rewrite Hstep4. }
  assert (Hok : forallb no_dequeue_failure sched' = true).
  { unfold sched'. rewrite !forallb_app, HokA, HokB. done. }
  exists sched', s4. split; [done|]. split; [done|]. split; [done|].
  destruct (shutdown_to_freed _ _ _ _ _ _ _ Hb Hp Hs Hrun Hp4)
    as (later & _ & Hsub & Hperm & _ & Hdr).
  pose proof (boot_run_nodes _ _ _ _ (boot_run_app _ _ _ _ _ _ Hb Hrun)) as Hn.
  unfold nodes_inv in Hn. rewrite Hp4 in Hn.
  split; [done|]. split; [done|].
  by rewrite (Hdr Hok), app_nil_r in Hperm.
Qed.

Lemma destroy_completes_witness :
  ∃ sched' s',
    forallb no_dequeue_failure sched' = true ∧
    run sys_T1_queued (LDestroy :: sched') = Some s' ∧
    pools (mem s') !! handle s' = None ∧
    nodes (mem s') = ∅ ∧
    submitted s' = submitted sys_T1_queued ∧
    submitted s' ≡ₚ invoked s'.
Proof.
  apply (destroy_completes 1 (env_ok 1) [submit_T1] sys_T1_queued
           (pool1 (Some 1%positive) (Some 1%positive) 1 0));
    vm_compute; reflexivity.
Defined.

(** ** The blocks behind the status copies *)

Section blocks.
Implicit Types (hb h : gmap positive block) (arr c : positive) (es : list ptr).
Implicit Types (cbs : list (positive * list ascii)) (cs : list positive).

Lemma foldr_delete_blocks_commute h c cs :
  foldr delete (delete c h) cs = delete c (foldr delete h cs).
Proof. induction cs as [|x xs IH]; simpl; [done|]. by rewrite IH, delete_delete. Qed.

Lemma lookup_foldr_delete h cs l :
  foldr delete h cs !! l = if decide (l ∈ cs) then None else h !! l.
Proof.
  induction cs as [|x xs IH]; [done|]. cbn [foldr].
  destruct (decide (l = x)) as [->|Hne].
  - rewrite lookup_delete_eq. rewrite decide_True; [done|]. apply elem_of_cons. by left.
  - rewrite lookup_delete_ne by done. rewrite IH.
    destruct (decide (l ∈ xs)) as [Hin|Hni].
    + rewrite decide_True; [done|]. apply elem_of_cons. by right.
    + rewrite decide_False; [done|]. intros [?|?]%elem_of_cons; done.
Qed.

Lemma lookup_copies hb cbs l :
  l ∉ cbs.*1 → foldr (λ cb acc, <[cb.1 := BufBlock cb.2]> acc) hb cbs !! l = hb !! l.
Proof.
  induction cbs as [|[c b] cbs IH]; simpl; [done|]. intros Hni.
  apply not_elem_of_cons in Hni as [Hne Hni]. by rewrite lookup_insert_ne, IH.
Qed.

Lemma lookup_copies_in hb cbs c b :
  NoDup cbs.*1 → (c, b) ∈ cbs →
  foldr (λ cb acc, <[cb.1 := BufBlock cb.2]> acc) hb cbs !! c = Some (BufBlock b).
Proof.
  induction cbs as [|[c0 b0] cbs IH]; simpl; intros Hnd Hin.
  - by apply elem_of_nil in Hin.
  - apply NoDup_cons in Hnd as [Hni Hnd]. apply elem_of_cons in Hin as [[= -> ->]|Hin].
    + by rewrite lookup_insert_eq.
    + rewrite lookup_insert_ne; [by apply IH|].
      intros ->. apply Hni. apply list_elem_of_fmap. by exists (c, b).
Qed.

Lemma copies_snoc hb cbs c b :
  c ∉ cbs.*1 →
  foldr (λ cb acc, <[cb.1 := BufBlock cb.2]> acc) hb (cbs ++ [(c, b)])
  = <[c := BufBlock b]> (foldr (λ cb acc, <[cb.1 := BufBlock cb.2]> acc) hb cbs).
Proof.
  induction cbs as [|[c0 b0] cbs IH]; simpl; [done|]. intros Hni.
  apply not_elem_of_cons in Hni as [Hne Hni]. rewrite IH by done.
  by apply insert_insert_ne.
Qed.

Lemma with_copies_arr hb arr es cbs : with_copies hb arr es cbs !! arr = Some (ArrBlock es).
Proof. apply lookup_insert_eq. Qed.

Lemma with_copies_snoc hb arr es es' cbs c b :
  c ≠ arr → c ∉ cbs.*1 →
  <[c := BufBlock b]> (<[arr := ArrBlock es']> (with_copies hb arr es cbs))
  = with_copies hb arr es' (cbs ++ [(c, b)]).
Proof.
  intros Hne Hni. unfold with_copies.
  rewrite insert_insert_eq, copies_snoc by done. by apply insert_insert_ne.
Qed.

Lemma with_copies_freed hb arr es cbs :
  arr ∉ cbs.*1 → (∀ c, c ∈ cbs.*1 → hb !! c = None) →
  foldr delete (with_copies hb arr es cbs) cbs.*1 = <[arr := ArrBlock es]> hb.
Proof.
  intros Harr Hfresh. apply map_eq. intros l. rewrite lookup_foldr_delete.
  destruct (decide (l ∈ cbs.*1)) as [Hin|Hni].
  - rewrite lookup_insert_ne by (intros <-; done). symmetry. by apply Hfresh.
  - unfold with_copies. destruct (decide (l = arr)) as [->|Hne].
    + by rewrite !lookup_insert_eq.
    + rewrite !lookup_insert_ne by done. by apply lookup_copies.
Qed.

Lemma free_entries_spec arr es cs : ∀ h j0,
  h !! arr = Some (ArrBlock es) →
  (∀ idx c, cs !! idx = Some c → es !! (j0 + idx)%nat = Some (Some c)) →
  NoDup cs → arr ∉ cs → (∀ c, c ∈ cs → is_Some (h !! c)) →
  free_entries h arr j0 (length cs) = Some (foldr delete h cs).
Proof.
  induction cs as [|c cs IH]; intros h j0 Harr Hes Hnd Hni Hall; simpl; [done|].
  apply NoDup_cons in Hnd as [Hc Hnd]. apply not_elem_of_cons in Hni as [Hne Hni].
  rewrite Harr. simpl.
  assert (Hj0 : es !! j0 = Some (Some c)).
  { replace j0 with (j0 + 0)%nat by lia. by apply Hes. }
  rewrite Hj0. simpl. destruct (Hall c ltac:(apply elem_of_cons; by left)) as [blk Hblk].
  rewrite Hblk. simpl. rewrite (IH (delete c h) (S j0)).
  - by rewrite foldr_delete_blocks_commute.
  - by rewrite lookup_delete_ne.
  - intros idx c' Hc'. replace (S j0 + idx)%nat with (j0 + S idx)%nat by lia.
    by apply Hes.
  - done.
  - done.
  - intros c' Hc'. rewrite lookup_delete_ne by (intros ->; done).
    apply Hall, elem_of_cons. by right.
Qed.
End blocks.

(** ** Query and release of the status copies *)

(** The copy loop, from a heap in which the copies [cbs] of the first
    workers and the array are allocated. *)
Lemma copy_names_blocks_spec env slots hb arr n : ∀ cbs,
  NoDup cbs.*1 → arr ∉ cbs.*1 → (∀ c, c ∈ cbs.*1 → hb !! c = None) →
  hb !! arr = None →
  (length cbs + n ≤ length slots)%nat →
  (∀ j c, (length cbs ≤ j < length cbs + n)%nat → alloc_copy env j = Some c →
     hb !! c = None ∧ c ≠ arr ∧ (c ∉ cbs.*1) ∧
     ∀ j', (length cbs ≤ j' < j)%nat → alloc_copy env j' ≠ Some c) →
  copy_names_blocks env slots arr (length cbs) n
    (with_copies hb arr ((Some <$> cbs.*1) ++ replicate n None) cbs)
  = match planned_copies env slots (length cbs) n with
    | Some new =>
      Some (with_copies hb arr (Some <$> (cbs ++ new).*1) (cbs ++ new), Some arr)
    | None => Some (hb, None)
    end.
Proof.
  induction n as [|n IH]; intros cbs Hnd Harr Hfresh Hhb Hlen Henv.
  - simpl. by rewrite !app_nil_r.
  - cbn [copy_names_blocks planned_copies].
    rewrite with_copies_arr. simpl.
    change (replicate (S n) (@None positive)) with (@None positive :: replicate n None) in *.
    assert (Hlc : length (Some <$> cbs.*1) = length cbs) by by rewrite !length_fmap.
    assert (Hi : ((Some <$> cbs.*1) ++ (None :: replicate n None)) !! length cbs = Some None).
    { rewrite lookup_app_r by lia. by rewrite Hlc, Nat.sub_diag. }
    rewrite Hi. simpl.
    assert (Hes : <[length cbs := alloc_copy env (length cbs)]>
                    ((Some <$> cbs.*1) ++ None :: replicate n None)
                  = (Some <$> cbs.*1) ++ alloc_copy env (length cbs) :: replicate n None).
    { rewrite insert_app_r_alt by lia. by rewrite Hlc, Nat.sub_diag. }
    rewrite Hes.
    assert (Hh1 : <[arr := ArrBlock ((Some <$> cbs.*1)
                                      ++ alloc_copy env (length cbs) :: replicate n None)]>
                    (with_copies hb arr ((Some <$> cbs.*1) ++ None :: replicate n None) cbs)
                  = with_copies hb arr ((Some <$> cbs.*1)
                                      ++ alloc_copy env (length cbs) :: replicate n None) cbs).
    { unfold with_copies. by rewrite insert_insert_eq. }
    destruct (alloc_copy env (length cbs)) as [c|] eqn:Hc; simpl.
    + destruct (Henv (length cbs) c ltac:(lia) Hc) as (Hcf & Hca & Hcn & _).
      destruct (slots !! length cbs) as [slot|] eqn:Hslot;
        [|apply lookup_ge_None in Hslot; lia].
      simpl. rewrite with_copies_snoc by done.
      replace ((Some <$> cbs.*1) ++ Some c :: replicate n None)
        with ((Some <$> (cbs ++ [(c, slot_copy slot)]).*1) ++ replicate n None)
        by (rewrite !fmap_app, <- app_assoc; done).
      replace (S (length cbs)) with (length (cbs ++ [(c, slot_copy slot)]))
        by (rewrite length_app; simpl; lia).
      rewrite IH.
      * destruct (planned_copies _ _ _ _) as [new|]; simpl; [|done].
        by rewrite <- app_assoc.
      * rewrite fmap_app. apply NoDup_app. repeat split; try done.
        -- intros x Hx Hx'. apply list_elem_of_singleton in Hx'. by subst.
        -- apply NoDup_singleton.
      * rewrite fmap_app. intros [?|Hin]%elem_of_app; [done|].
        apply list_elem_of_singleton in Hin. done.
      * rewrite fmap_app. intros c' [?|Hin]%elem_of_app; [by apply Hfresh|].
        apply list_elem_of_singleton in Hin. by subst.
      * done.
      * rewrite length_app. simpl. lia.
      * rewrite length_app. simpl. intros j c' Hj Hc'.
        destruct (Henv j c' ltac:(lia) Hc') as (H1 & H2 & H3 & H4).
        split; [done|]. split; [done|]. split.
        -- rewrite fmap_app. intros [?|Hin]%elem_of_app; [done|].
           apply list_elem_of_singleton in Hin. simpl in Hin. subst c'.
           by apply (H4 (length cbs) ltac:(lia)).
        -- intros j' Hj'. apply H4. lia.
    + rewrite Hh1.
      rewrite <- (length_fmap fst cbs).
      rewrite (free_entries_spec arr ((Some <$> cbs.*1) ++ None :: replicate n None) cbs.*1).
      * simpl. rewrite with_copies_freed by done. rewrite lookup_insert_eq. simpl.
        by rewrite delete_insert_id.
      * apply with_copies_arr.
      * intros idx c Hidx. simpl. rewrite lookup_app_l.
        -- by rewrite list_lookup_fmap, Hidx.
        -- rewrite Hlc, <- (length_fmap fst cbs). by eapply lookup_lt_Some.
      * done.
      * done.
      * intros c Hin. pose proof Hin as Hin'.
        apply list_elem_of_fmap in Hin as ([c' b] & Heq & Hin). simpl in Heq. subst c'.
        unfold with_copies. rewrite lookup_insert_ne by (by intros <-).
        erewrite lookup_copies_in; [by eexists|done|done].
Qed.

Lemma planned_copies_none env slots i n :
  (i + n ≤ length slots)%nat →
  planned_copies env slots i n = None ↔
  ∃ j, (i ≤ j < i + n)%nat ∧ alloc_copy env j = None.
Proof.
  revert i. induction n as [|n IH]; intros i Hlen; simpl.
  - split; [done|]. intros (j & ? & _). lia.
  - destruct (alloc_copy env i) as [c|] eqn:Hc; simpl.
    + destruct (slots !! i) as [slot|] eqn:Hs; [|apply lookup_ge_None in Hs; lia].
      simpl. destruct (planned_copies env slots (S i) n) as [rest|] eqn:Hp; simpl.
      * split; [done|]. intros (j & Hj & Hf).
        assert (planned_copies env slots (S i) n = None) as Hn; [|congruence].
        apply IH; [lia|]. exists j. split; [|done].
        destruct (decide (j = i)) as [->|]; [congruence|lia].
      * split; [|done]. intros _. apply IH in Hp as (j & Hj & Hf); [|lia].
        exists j. split; [lia|done].
    + split; [|done]. intros _. exists i. split; [lia|done].
Qed.

Lemma planned_copies_some env slots i n new :
  planned_copies env slots i n = Some new →
  length new = n ∧
  ∀ idx, (idx < n)%nat →
    ∃ c slot, alloc_copy env (i + idx) = Some c ∧ slots !! (i + idx)%nat = Some slot ∧
              new !! idx = Some (c, slot_copy slot).
Proof.
  revert i new. induction n as [|n IH]; intros i new; simpl.
  - intros [= <-]. split; [done|]. intros; lia.
  - destruct (alloc_copy env i) as [c|] eqn:Hc; simpl; [|done].
    destruct (slots !! i) as [slot|] eqn:Hs; simpl; [|done].
    destruct (planned_copies env slots (S i) n) as [rest|] eqn:Hp; simpl; [|done].
    intros [= <-]. destruct (IH _ _ Hp) as [Hl Hrest]. split; [simpl; lia|].
    intros [|idx] Hidx.
    + exists c, slot. rewrite Nat.add_0_r. done.
    + destruct (Hrest idx ltac:(lia)) as (c' & slot' & H1 & H2 & H3).
      exists c', slot'. replace (i + S idx)%nat with (S i + idx)%nat by lia. done.
Qed.

Lemma planned_copies_is_some env slots i n :
  (i + n ≤ length slots)%nat →
  (∀ j, (i ≤ j < i + n)%nat → is_Some (alloc_copy env j)) →
  is_Some (planned_copies env slots i n).
Proof.
  intros Hlen Hall.
  destruct (planned_copies env slots i n) as [new|] eqn:Hp; [by eexists|].
  apply planned_copies_none in Hp as (j & Hj & Hnone); [|done].
  destruct (Hall j Hj) as [c Hc]. congruence.
Qed.

Lemma planned_fresh hb k env slots arr new :
  names_alloc_fresh hb k env → alloc_array env = Some arr →
  planned_copies env slots 0 k = Some new →
  NoDup new.*1 ∧ (arr ∉ new.*1) ∧ ∀ c, c ∈ new.*1 → hb !! c = None.
Proof.
  intros (Hfa & Hfc & Hfd) Harr Hp.
  apply planned_copies_some in Hp as [Hl Hnew].
  assert (Hat : ∀ idx c, new.*1 !! idx = Some c →
                 (idx < k)%nat ∧ alloc_copy env idx = Some c).
  { intros idx c Hidx. rewrite list_lookup_fmap in Hidx.
    destruct (new !! idx) as [[c' b]|] eqn:Hn; [|done]. simpl in Hidx.
    injection Hidx as ->.
    assert (idx < k)%nat as Hlt by (rewrite <- Hl; by eapply lookup_lt_Some).
    split; [done|]. destruct (Hnew idx Hlt) as (c1 & slot & H1 & _ & H3).
    simpl in *. congruence. }
  split; [|split].
  - apply NoDup_alt. intros i j c Hi Hj.
    apply Hat in Hi as [Hik Hi]. apply Hat in Hj as [Hjk Hj].
    destruct (Nat.lt_trichotomy i j) as [Hlt|[?|Hlt]]; [|done|].
    + by destruct (Hfd i j c ltac:(lia) Hi).
    + by destruct (Hfd j i c ltac:(lia) Hj).
  - intros Hin. apply list_elem_of_lookup in Hin as [idx Hidx].
    apply Hat in Hidx as [Hlt Hidx]. destruct (Hfc idx arr Hlt Hidx) as [_ Hne].
    by apply Hne.
  - intros c Hin. apply list_elem_of_lookup in Hin as [idx Hidx].
    apply Hat in Hidx as [Hlt Hidx]. by destruct (Hfc idx c Hlt Hidx).
Qed.

(** The query on a heap of blocks, by the copies that are planned. *)
Lemma names_blocks_spec m hb a p env arr :
  pools m !! a = Some p →
  length (running_task_names p) = Z.to_nat (thread_count p) →
  names_alloc_fresh hb (Z.to_nat (thread_count p)) env →
  alloc_array env = Some arr →
  thread_pool_get_running_task_names_blocks m hb (Some a) env
  = match planned_copies env (running_task_names p) 0 (Z.to_nat (thread_count p)) with
    | Some new => Some (with_copies hb arr (Some <$> new.*1) new, Some arr)
    | None => Some (hb, None)
    end.
Proof.
  intros Hp Hlen (Hfa & Hfc & Hfd) Harr.
  unfold thread_pool_get_running_task_names_blocks. rewrite Hp. simpl. rewrite Harr.
  pose proof (copy_names_blocks_spec env (running_task_names p) hb arr
                (Z.to_nat (thread_count p)) []) as Hspec.
  unfold with_copies in *. simpl in Hspec. apply Hspec.
  - apply NoDup_nil_2.
  - apply not_elem_of_nil.
  - intros c Hc. by apply elem_of_nil in Hc.
  - by apply Hfa.
  - lia.
  - intros i c Hi Hc. destruct (Hfc i c ltac:(lia) Hc) as [H1 H2].
    split; [done|]. split; [congruence|]. split; [apply not_elem_of_nil|].
    intros j' Hj' Hc'. by destruct (Hfd j' i c ltac:(lia) Hc').
Qed.

Lemma names_alloc_demo_fresh : names_alloc_fresh ∅ 1 names_alloc_demo.
Proof.
  split; [|split].
  - intros arr _. apply lookup_empty.
  - intros i c _ [= <-]. split; [apply lookup_empty|done].
  - intros i j c Hij. lia.
Qed.

(** What the query leaves behind when it fails: nothing. If the array or one
    of the copies cannot be allocated, the copies already made and the array
    are freed again, [NULL] is returned and the heap is as before the call. *)
Theorem names_failure_frees_all m hb a p env :
  pools m !! a = Some p →
  length (running_task_names p) = Z.to_nat (thread_count p) →
  names_alloc_fresh hb (Z.to_nat (thread_count p)) env →
  alloc_array env = None ∨
    (∃ j, (j < Z.to_nat (thread_count p))%nat ∧ alloc_copy env j = None) →
  thread_pool_get_running_task_names_blocks m hb (Some a) env = Some (hb, None).
Proof.
  intros Hp Hlen Hfresh Hfail.
  destruct (alloc_array env) as [arr|] eqn:Harr.
  - rewrite (names_blocks_spec m hb a p env arr) by done.
    destruct Hfail as [?|(j & Hj & Hnone)]; [done|].
    assert (planned_copies env (running_task_names p) 0 (Z.to_nat (thread_count p)) = None)
      as ->; [|done].
    apply planned_copies_none; [lia|]. exists j. split; [lia|done].
  - unfold thread_pool_get_running_task_names_blocks. rewrite Hp. simpl. by rewrite Harr.
Qed.

Lemma names_failure_frees_all_witness :
  thread_pool_get_running_task_names_blocks mem_created ∅ (Some 1%positive)
    (NamesAlloc (Some 10%positive) (λ _, None)) = Some (∅, None).
Proof.
  apply (names_failure_frees_all mem_created ∅ 1%positive (pool1 None None 0 0)).
  - vm_compute; reflexivity.
  - vm_compute; reflexivity.
  - split; [|split].
    + intros arr _. apply lookup_empty.
    + intros i c _ H. simpl in H. discriminate H.
    + intros i j c _ H. simpl in H. discriminate H.
  - right. exists 0%nat. split; [vm_compute; lia|reflexivity].
Defined.

(** Query and release are a round trip. When every allocation succeeds the
    query returns the array; entry [i] of it points to a buffer of its own
    that holds the copy of worker [i]'s slot, and
    [free_running_task_names] with the pool's thread count then frees these
    buffers and the array: the heap is as before the query. *)
Theorem names_query_then_free m hb a p env arr :
  pools m !! a = Some p →
  length (running_task_names p) = Z.to_nat (thread_count p) →
  names_alloc_fresh hb (Z.to_nat (thread_count p)) env →
  alloc_array env = Some arr →
  (∀ j, (j < Z.to_nat (thread_count p))%nat → is_Some (alloc_copy env j)) →
  ∃ hb1 es,
    thread_pool_get_running_task_names_blocks m hb (Some a) env = Some (hb1, Some arr) ∧
    hb1 !! arr = Some (ArrBlock es) ∧
    length es = Z.to_nat (thread_count p) ∧
    (∀ i slot, running_task_names p !! i = Some slot →
       ∃ c, es !! i = Some (Some c) ∧ hb1 !! c = Some (BufBlock (slot_copy slot))) ∧
    free_running_task_names hb1 (Some arr) (thread_count p) = Some hb.
Proof.
  intros Hp Hlen Hfresh Harr Hall.
  rewrite (names_blocks_spec m hb a p env arr) by done.
  destruct (planned_copies_is_some env (running_task_names p) 0 (Z.to_nat (thread_count p)))
    as [new Hnew]; [lia|intros j Hj; apply Hall; lia|].
  rewrite Hnew.
  destruct (planned_fresh hb _ env _ arr new Hfresh Harr Hnew) as (Hnd & Hna & Hnf).
  pose proof (planned_copies_some _ _ _ _ _ Hnew) as [Hl Hat].
  exists (with_copies hb arr (Some <$> new.*1) new), (Some <$> new.*1).
  split; [done|]. split; [apply with_copies_arr|].
  split; [by rewrite !length_fmap|]. split.
  - intros i slot Hslot.
    assert (i < Z.to_nat (thread_count p))%nat as Hi
      by (rewrite <- Hlen; by eapply lookup_lt_Some).
    destruct (Hat i Hi) as (c & slot' & Hc & Hs & Hn). simpl in *.
    assert (slot' = slot) as -> by congruence.
    exists c. split.
    + by rewrite !list_lookup_fmap, Hn.
    + unfold with_copies. rewrite lookup_insert_ne.
      * apply lookup_copies_in; [done|]. by eapply list_elem_of_lookup_2.
      * intros <-. apply Hna. apply list_elem_of_fmap. exists (arr, slot_copy slot).
        split; [done|]. by eapply list_elem_of_lookup_2.
  - destruct Hfresh as (Hfa & _ & _).
    unfold free_running_task_names. case_decide as Hneg.
    + assert (new = []) as -> by (apply nil_length_inv; lia).
      unfold with_copies, free_block. simpl. rewrite lookup_insert_eq. simpl.
      rewrite delete_insert_id; [done|by apply Hfa].
    + replace (Z.to_nat (thread_count p)) with (length new.*1)
        by (by rewrite length_fmap).
      rewrite (free_entries_spec arr (Some <$> new.*1) new.*1).
      * simpl. rewrite with_copies_freed by done. rewrite lookup_insert_eq. simpl.
        rewrite delete_insert_id; [done|by apply Hfa].
      * apply with_copies_arr.
      * intros idx c Hidx. simpl. by rewrite list_lookup_fmap, Hidx.
      * done.
      * done.
      * intros c Hin. pose proof Hin as Hin'.
        apply list_elem_of_fmap in Hin as ([c' b] & Heq & Hin). simpl in Heq. subst c'.
        unfold with_copies. rewrite lookup_insert_ne by (by intros <-).
        erewrite lookup_copies_in; [by eexists|done|done].
Qed.

Lemma names_query_then_free_witness :
  ∃ hb1 es,
    thread_pool_get_running_task_names_blocks mem_created ∅ (Some 1%positive)
      names_alloc_demo = Some (hb1, Some 10%positive) ∧
    hb1 !! 10%positive = Some (ArrBlock es) ∧
    length es = Z.to_nat (thread_count (pool1 None None 0 0)) ∧
    (∀ i slot, running_task_names (pool1 None None 0 0) !! i = Some slot →
       ∃ c, es !! i = Some (Some c) ∧ hb1 !! c = Some (BufBlock (slot_copy slot))) ∧
    free_running_task_names hb1 (Some 10%positive) (thread_count (pool1 None None 0 0)) = Some ∅.
Proof.
  apply (names_query_then_free mem_created ∅ 1%positive (pool1 None None 0 0) names_alloc_demo).
  - vm_compute; reflexivity.
  - vm_compute; reflexivity.
  - apply names_alloc_demo_fresh.
  - reflexivity.
  - intros j _. simpl. eexists; reflexivity.
Defined.

(** A negative count frees the array only. After a successful query,
    [free_running_task_names] called with a negative count releases the
    array and leaves every copy allocated: the buffers of the names leak. *)
Theorem free_negative_count_leaks m hb a p env arr hb1 count :
  pools m !! a = Some p →
  length (running_task_names p) = Z.to_nat (thread_count p) →
  names_alloc_fresh hb (Z.to_nat (thread_count p)) env →
  thread_pool_get_running_task_names_blocks m hb (Some a) env = Some (hb1, Some arr) →
  count < 0 →
  ∃ hb2, free_running_task_names hb1 (Some arr) count = Some hb2 ∧
    hb2 !! arr = None ∧
    ∀ i, (i < Z.to_nat (thread_count p))%nat →
      ∃ c b, alloc_copy env i = Some c ∧ hb !! c = None ∧ hb2 !! c = Some (BufBlock b).
Proof.
  intros Hp Hlen Hfresh Hget Hneg.
  assert (alloc_array env = Some arr) as Harr.
  { destruct (alloc_array env) as [arr'|] eqn:Ha.
    - rewrite (names_blocks_spec m hb a p env arr') in Hget by done.
      destruct (planned_copies _ _ _ _); congruence.
    - unfold thread_pool_get_running_task_names_blocks in Hget. rewrite Hp in Hget.
      simpl in Hget. rewrite Ha in Hget. congruence. }
  rewrite (names_blocks_spec m hb a p env arr) in Hget by done.
  destruct (planned_copies env (running_task_names p) 0 (Z.to_nat (thread_count p)))
    as [new|] eqn:Hnew; [|done].
  injection Hget as <-.
  destruct (planned_fresh hb _ env _ arr new Hfresh Harr Hnew) as (Hnd & Hna & Hnf).
  pose proof (planned_copies_some _ _ _ _ _ Hnew) as [Hl Hat].
  exists (delete arr (with_copies hb arr (Some <$> new.*1) new)).
  split; [|split].
  - unfold free_running_task_names. rewrite decide_True by done.
    unfold free_block. by rewrite with_copies_arr.
  - apply lookup_delete_eq.
  - intros i Hi. destruct (Hat i Hi) as (c & slot & Hc & Hs & Hn). simpl in *.
    assert (c ∈ new.*1) as Hin.
    { apply list_elem_of_fmap. exists (c, slot_copy slot).
      split; [done|]. by eapply list_elem_of_lookup_2. }
    exists c, (slot_copy slot). split; [done|]. split; [by apply Hnf|].
    assert (c ≠ arr) as Hne by (by intros ->).
    rewrite lookup_delete_ne by done.
    unfold with_copies. rewrite lookup_insert_ne by done.
    apply lookup_copies_in; [done|]. by eapply list_elem_of_lookup_2.
Qed.

Lemma free_negative_count_leaks_witness :
  ∃ hb2, free_running_task_names
           {[ 10%positive := ArrBlock [Some 11%positive];
              11%positive := BufBlock idle_copy ]} (Some 10%positive) (-1) = Some hb2 ∧
    hb2 !! 10%positive = None ∧
    ∀ i, (i < Z.to_nat (thread_count (pool1 None None 0 0)))%nat →
      ∃ c b, alloc_copy names_alloc_demo i = Some c ∧
             (∅ : gmap positive block) !! c = None ∧ hb2 !! c = Some (BufBlock b).
Proof.
  apply (free_negative_count_leaks mem_created ∅ 1%positive (pool1 None None 0 0) names_alloc_demo).
  - vm_compute; reflexivity.
  - vm_compute; reflexivity.
  - apply names_alloc_demo_fresh.
  - vm_compute; reflexivity.
  - lia.
Defined.
